(** * FileSystem.cpp: a shallow embedding of the [FS] helpers

    The C++ unit [logic/FileSystem.cpp] is a thin layer over Qt: strings are
    [QString]s, byte buffers are [QByteArray]s, and every effect goes through
    a Qt class ([QDir], [QFile], [QSaveFile], [QFileInfo]).  The functions of
    the unit are embedded below one by one; the Qt primitives they call are
    modelled in the modules [Qt] (pure path and string functions), [Store]
    (the file store seen by [QFile]/[QSaveFile]) and [Walk] (the directory
    tree seen by [QDir::entryList] and [QFileInfo]). *)

From Stdlib Require Import ZArith NArith List Bool Ascii String.
From Stdlib Require Import Strings.Byte.
From Stdlib Require Import DecimalString.
From stdpp Require Import base list gmap.

Local Open Scope N_scope.

(** ** Strings and byte buffers *)

(** A [QChar] is a UTF-16 code unit, a [QString] a sequence of them. *)
Abbreviation QChar := N (only parsing).
Abbreviation QString := (list N) (only parsing).

(** A [QByteArray] is a sequence of bytes. *)
Abbreviation QByteArray := (list byte) (only parsing).

(** String literals of the C++ source, as [QString]s. *)
Definition QStr (s : string) : QString :=
  map N_of_ascii (list_ascii_of_string s).

(** The three build targets selected by [Q_OS_LINUX], [Q_OS_WIN] /
    [Q_OS_WIN32] and the final [#else]. *)
Inductive Platform := Linux | Windows | OtherOS.

(** C++ [int]: a 32-bit two's complement integer; [to_int] is the
    conversion (wrap-around) from a wider value. *)
Definition to_int (z : Z) : Z :=
  ((z + 2147483648) mod 4294967296 - 2147483648)%Z.

Module Qt.

Definition slash : QChar := 47.
Definition backslash : QChar := 92.
Definition dot : QString := [46].
Definition dotdot : QString := [46; 46].

(** [QString::contains(QChar)], case sensitive. *)
Definition contains (s : QString) (c : QChar) : bool :=
  existsb (N.eqb c) s.

(** [QString::startsWith(QString)], case sensitive. *)
Fixpoint startsWith (s p : QString) : bool :=
  match p, s with
  | [], _ => true
  | _ :: _, [] => false
  | c :: p', d :: s' => (c =? d) && startsWith s' p'
  end.

(** [QString::number(int)]. *)
Definition number (n : Z) : QString :=
  QStr (NilEmpty.string_of_int (Z.to_int n)).

(** [QString::split(sep)], keeping empty parts. *)
Fixpoint split (sep : QChar) (s : QString) : list QString :=
  match s with
  | [] => [[]]
  | c :: r =>
      if c =? sep then [] :: split sep r
      else match split sep r with
           | seg :: segs => (c :: seg) :: segs
           | [] => [[c]]
           end
  end.

(** [QStringList::join(sep)]. *)
Fixpoint join (sep : QString) (l : list QString) : QString :=
  match l with
  | [] => []
  | [x] => x
  | x :: r => x ++ sep ++ join sep r
  end.

(** [QDir::separator()]: the native separator of the platform. *)
Definition separator (os : Platform) : QChar :=
  match os with
  | Windows => backslash
  | _ => slash
  end.

(** [QDir::fromNativeSeparators]: on Windows every backslash becomes a
    slash, elsewhere the string is unchanged. *)
Definition fromNativeSeparators (os : Platform) (s : QString) : QString :=
  match os with
  | Windows => map (fun c => if c =? backslash then slash else c) s
  | _ => s
  end.

(** A path is absolute when it starts at the root.  (Drive letters and
    UNC roots of Windows are outside this model.) *)
Definition isAbsolutePath (p : QString) : bool :=
  match p with
  | c :: _ => c =? slash
  | [] => false
  end.

(** One step of segment normalization, on the stack of the segments kept
    so far (innermost first): empty segments and [.] vanish, [..] cancels
    the segment before it when there is one to cancel and is kept
    otherwise. *)
Definition push_segment (kept : list QString) (seg : QString)
    : list QString :=
  if bool_decide (seg = []) || bool_decide (seg = dot) then kept
  else if bool_decide (seg = dotdot) then
    match kept with
    | top :: rest => if bool_decide (top = dotdot) then seg :: kept else rest
    | [] => [seg]
    end
  else seg :: kept.

Definition normalize_segments (segs : list QString) : list QString :=
  rev (foldl push_segment [] segs).

(** [QDir::cleanPath], after the Qt 5 documentation: separators are
    normalized to [/], redundant separators and [.] are removed, [..] is
    resolved as far as possible, a trailing slash is dropped except for
    the root; the empty path stays empty and a relative path that
    cancels out becomes [.]. *)
Definition cleanPath (os : Platform) (path : QString) : QString :=
  match path with
  | [] => []
  | _ =>
      let name := fromNativeSeparators os path in
      let segs := normalize_segments (split slash name) in
      if isAbsolutePath name then slash :: join [slash] segs
      else match segs with
           | [] => dot
           | _ => join [slash] segs
           end
  end.

(** The path held by [QDir(path)]: an empty path stands for [.]. *)
Definition QDir_path (path : QString) : QString :=
  match path with
  | [] => dot
  | _ => path
  end.

(** [QDir(path).absolutePath()] in a process whose working directory is
    [cwd]. *)
Definition absolutePath (os : Platform) (cwd path : QString) : QString :=
  let p := fromNativeSeparators os (QDir_path path) in
  if isAbsolutePath p then cleanPath os p
  else cleanPath os (cwd ++ [slash] ++ p).

(** The non-empty segments of a cleaned path. *)
Definition elements (p : QString) : list QString :=
  filter (fun seg => seg <> []) (split slash p).

(** Length of the longest common prefix of two segment lists. *)
Fixpoint common (a b : list QString) : nat :=
  match a, b with
  | x :: a', y :: b' => if bool_decide (x = y) then S (common a' b') else 0%nat
  | _, _ => 0%nat
  end.

(** [QDir(dir).relativeFilePath(fileName)], after Qt 5: both paths are
    cleaned; the common leading segments are dropped, every remaining
    segment of the directory becomes [../], the remaining segments of the
    file follow; the empty result is [.]. *)
Definition relativeFilePath (os : Platform) (cwd dir fileName : QString)
    : QString :=
  let d := cleanPath os (absolutePath os cwd dir) in
  let file := cleanPath os fileName in
  if negb (isAbsolutePath file) || negb (isAbsolutePath d) then file
  else
    let dirElts := elements d in
    let fileElts := elements file in
    let i := common dirElts fileElts in
    let result :=
      concat (replicate (length dirElts - i) (QStr "../"))
        ++ join [slash] (drop i fileElts) in
    match result with
    | [] => dot
    | _ => result
    end.

(** [QFileInfo(file).path()]: the file's path without the file name, that
    is everything before the last slash; [.] when there is no slash and
    [/] when the only slash is the leading one; empty for the empty name.
    (The drive roots of Windows are outside this model.) *)
Fixpoint path_before_last_slash (s : QString) : option QString :=
  match s with
  | [] => None
  | c :: r =>
      match path_before_last_slash r with
      | Some p => Some (c :: p)
      | None => if c =? slash then Some [] else None
      end
  end.

Definition path (os : Platform) (file : QString) : QString :=
  match file with
  | [] => []
  | _ =>
      match path_before_last_slash (fromNativeSeparators os file) with
      | None => dot
      | Some [] => [slash]
      | Some p => p
      end
  end.

(** The directories that [QDir::mkpath] walks through to reach the cleaned
    absolute path [p], outermost first: [/a], [/a/b], ... *)
Definition chain (p : QString) : list QString :=
  let segs := elements p in
  map (fun n => slash :: join [slash] (take n segs)) (seq 1 (length segs)).

End Qt.

(** ** Filename sanitization *)

(** [QString badFilenameChars]: the ten characters
    double quote, backslash, [/ ? < > : * | !], as code units. *)
Definition badFilenameChars : QString :=
  [34; 92; 47; 63; 60; 62; 58; 42; 124; 33].

(** One iteration of the [for] loop of [RemoveInvalidFilenameChars]:
    [if (badFilenameChars.contains(string[i])) string[i] = replaceWith;] *)
Definition RemoveInvalidFilenameChars_step (replaceWith : QChar)
    (string : QString) (i : nat) : QString :=
  match string !! i with
  | Some ch =>
      if Qt.contains badFilenameChars ch then <[i := replaceWith]> string
      else string
  | None => string
  end.

(** [FS::RemoveInvalidFilenameChars]: the loop runs [i] over
    [0 .. string.length()-1] and updates the (by-value) argument in place. *)
Definition RemoveInvalidFilenameChars (string : QString) (replaceWith : QChar)
    : QString :=
  foldl (RemoveInvalidFilenameChars_step replaceWith) string
        (seq 0 (length string)).

(** The per-character reading of the loop, used to state its effect. *)
Definition sanitized_char (replaceWith ch : QChar) : QChar :=
  if Qt.contains badFilenameChars ch then replaceWith else ch.

(** ** Path utilities *)

(** [FS::PathCombine(path1, path2)]. *)
Definition PathCombine (os : Platform) (path1 path2 : QString) : QString :=
  if (length path1 =? 0)%nat then path2
  else if (length path2 =? 0)%nat then path1
  else Qt.cleanPath os (path1 ++ [Qt.separator os] ++ path2).

(** [FS::PathCombine(path1, path2, path3)]. *)
Definition PathCombine3 (os : Platform) (path1 path2 path3 : QString)
    : QString :=
  PathCombine os (PathCombine os path1 path2) path3.

(** [FS::NormalizePath], in a process whose [QDir::currentPath()] is
    [currentPath]. *)
Definition NormalizePath (os : Platform) (currentPath path : QString)
    : QString :=
  let a := currentPath in
  let currentAbsolute := Qt.absolutePath os currentPath a in
  let b := path in
  let newAbsolute := Qt.absolutePath os currentPath b in
  if Qt.startsWith newAbsolute currentAbsolute
  then Qt.relativeFilePath os currentPath a newAbsolute
  else newAbsolute.

(** The doc comment of [NormalizePath] speaks of paths "inside the current
    directory": the directory's segments lead the path's segments. *)
Definition inside (directory path : QString) : bool :=
  bool_decide (Qt.elements directory `prefix_of` Qt.elements path).

(** *** What canonicalizing a path means *)





(** ** The file store behind [QFile], [QSaveFile] and [QDir::mkpath] *)

(** The primitives of this module follow the Qt 5 documentation of the
    classes they stand for; what Qt leaves to the operating system (a
    refusal, a short transfer) is left to an environment [Env], and every
    statement below holds for every environment. *)

Module Store.

(** What sits at a cleaned absolute path: a regular file with its bytes and
    its executable bit, or a directory. *)
Inductive Node :=
| File (data : QByteArray) (exec : bool)
| Dir.

(** The part of the operating system that the program does not control:
    which requests are refused, how many bytes a transfer really moves,
    the name picked for a temporary file, and the text codecs. *)
Record Env := {
  may_mkdir : QString -> bool;
  may_create : QString -> bool;
  accepts : QString -> QByteArray -> Z;
  may_rename : QString -> QString -> bool;
  temp_suffix : QString -> QString;
  may_read : QString -> bool;
  delivers : QString -> Z -> Z;
  may_chmod : QString -> bool;
  toLocal8Bit : QString -> QByteArray;
  fromUtf8 : QByteArray -> QString;
  encode : QString -> QByteArray
}.

Record World := {
  currentPath : QString;
  nodes : gmap QString Node;
  env : Env
}.

Definition with_nodes (w : World) (m : gmap QString Node) : World :=
  {| currentPath := currentPath w; nodes := m; env := env w |}.

(** The store key of a path string: its cleaned absolute form. *)
Definition key (os : Platform) (w : World) (p : QString) : QString :=
  Qt.absolutePath os (currentPath w) p.

(** What a reader finds at a key: the bytes of the regular file there. *)
Definition file_at (w : World) (k : QString) : option QByteArray :=
  match nodes w !! k with
  | Some (File d _) => Some d
  | _ => None
  end.

Definition is_dir (w : World) (k : QString) : bool :=
  match k, nodes w !! k with
  | [47], _ => true
  | _, Some Dir => true
  | _, _ => false
  end.

Definition exec_at (w : World) (k : QString) : bool :=
  match nodes w !! k with
  | Some (File _ e) => e
  | _ => false
  end.

(** *** The exceptions of the unit and the monad of the throwing family *)

(** [FS::FileSystemException], one constructor per [throw] site (the
    message text embeds [errorString()] and is not modelled). *)
Inductive FileSystemException :=
| UnableToCreateDirectory (absolutePath : QString)
| CouldNotOpenForWriting (filename : QString)
| ErrorWritingData (filename : QString)
| ErrorCommitting (filename : QString)
| UnableToOpenForReading (filename : QString)
| ErrorReadingData (filename : QString).

Inductive Result (A : Type) :=
| Ok (a : A)
| Throw (e : FileSystemException).
Arguments Ok {A} a.
Arguments Throw {A} e.

(** A run carries the current world and, as ghost state, every world that
    was current between two primitive calls: these are the states another
    process can observe while the call is in progress. *)
Record Run := { cur : World; past : list World }.

Definition start (w : World) : Run := {| cur := w; past := [] |}.

Definition observable (r : Run) : list World := cur r :: past r.

Definition M (A : Type) : Type := Run -> Result A * Run.

#[global] Instance M_ret : MRet M := fun A a r => (Ok a, r).

#[global] Instance M_bind : MBind M := fun A B f m r =>
  match m r with
  | (Ok a, r') => f a r'
  | (Throw e, r') => (Throw e, r')
  end.

Definition throw {A} (e : FileSystemException) : M A :=
  fun r => (Throw e, r).

(** A primitive call: one atomic transition of the store. *)
Definition prim {A} (f : World -> A * World) : M A :=
  fun r =>
    let (a, w') := f (cur r) in
    (Ok a, {| cur := w'; past := cur r :: past r |}).

(** *** [QDir::mkpath] *)

Definition mkdir_one (acc : bool * World) (d : QString) : bool * World :=
  let (ok, w) := acc in
  if negb ok then acc
  else match nodes w !! d with
       | Some Dir => (true, w)
       | Some (File _ _) => (false, w)
       | None =>
           if may_mkdir (env w) d
           then (true, with_nodes w (<[d := Dir]> (nodes w)))
           else (false, w)
       end.

(** [QDir().mkpath(dirPath)] for an absolute, cleaned [dirPath]: creates
    every missing directory on the way, [true] when the directory exists
    in the end. *)
Definition mkpath (dirPath : QString) (w : World) : bool * World :=
  foldl mkdir_one (true, w) (Qt.chain dirPath).

(** *** [QSaveFile] *)

(** The object [QSaveFile file(filename)]: the final name, and the name of
    the temporary file while one is open. *)
Record QSaveFile := {
  fileName : QString;
  finalKey : QString;
  tempKey : option QString
}.

(** [QSaveFile::open(WriteOnly)]: refuses an empty name, a directory, a
    missing parent directory and whatever the system refuses; otherwise
    creates an empty temporary file next to the destination. *)
Definition QSaveFile_open (os : Platform) (filename : QString) (w : World)
    : (bool * QSaveFile) * World :=
  let k := key os w filename in
  let closed := {| fileName := filename; finalKey := k; tempKey := None |} in
  let t := k ++ [46] ++ temp_suffix (env w) k in
  if bool_decide (filename = []) || is_dir w k
     || negb (is_dir w (Qt.path os k)) || negb (may_create (env w) t)
  then ((false, closed), w)
  else ((true, {| fileName := filename; finalKey := k; tempKey := Some t |}),
        with_nodes w (<[t := File [] false]> (nodes w))).

(** [QSaveFile::write(data)]: the bytes go to the temporary file; the
    return value is the number of bytes accepted. *)
Definition QSaveFile_write (file : QSaveFile) (data : QByteArray) (w : World)
    : Z * World :=
  match tempKey file with
  | None => ((-1)%Z, w)
  | Some t =>
      let n := accepts (env w) t data in
      (n, with_nodes w (<[t := File (take (Z.to_nat n) data) false]> (nodes w)))
  end.

(** [QSaveFile::commit()]: renames the temporary file onto the
    destination in one step, or removes it when the rename is refused. *)
Definition QSaveFile_commit (file : QSaveFile) (w : World)
    : (bool * QSaveFile) * World :=
  let done_ :=
    {| fileName := fileName file; finalKey := finalKey file;
       tempKey := None |} in
  match tempKey file with
  | None => ((false, done_), w)
  | Some t =>
      match nodes w !! t with
      | Some (File d _) =>
          if may_rename (env w) t (finalKey file)
          then ((true, done_),
                with_nodes w
                  (<[finalKey file := File d (exec_at w (finalKey file))]>
                     (delete t (nodes w))))
          else ((false, done_), with_nodes w (delete t (nodes w)))
      | _ => ((false, done_), w)
      end
  end.

(** [QSaveFile::~QSaveFile()]: a save that was not committed is
    cancelled, its temporary file removed. *)
Definition QSaveFile_destroy (file : QSaveFile) (w : World) : unit * World :=
  match tempKey file with
  | None => (tt, w)
  | Some t => (tt, with_nodes w (delete t (nodes w)))
  end.

(** *** [QFile] *)

(** [QFile::open(ReadOnly)]: gives the bytes of the regular file, when
    there is one and the system lets it be read.  (The store holds
    regular files and directories only: devices, FIFOs and sockets, which
    can be opened too, are outside this model.) *)
Definition QFile_open_read (os : Platform) (filename : QString) (w : World)
    : option QByteArray * World :=
  let k := key os w filename in
  match file_at w k with
  | Some d => if may_read (env w) k then (Some d, w) else (None, w)
  | None => (None, w)
  end.

(** [QByteArray(size, ch)]. *)
Definition QByteArray_fill (size : Z) (ch : byte) : QByteArray :=
  replicate (Z.to_nat size) ch.

(** [QFile::read(char *buf, qint64 maxlen)] on a file holding [content]:
    the system delivers [ret] bytes, which overwrite the front of the
    buffer.  (The buffer never grows: bytes past its end are beyond this
    model.) *)
Definition QFile_read (os : Platform) (filename : QString)
    (content buf : QByteArray) (maxlen : Z) (w : World)
    : (Z * QByteArray) * World :=
  let ret := delivers (env w) (key os w filename) maxlen in
  let got := take (Z.to_nat ret) content in
  ((ret, take (length buf) (got ++ drop (length got) buf)), w).

(** [QFile::open(WriteOnly | Text)]: creates or truncates the file. *)
Definition QFile_open_write (os : Platform) (filename : QString) (w : World)
    : bool * World :=
  let k := key os w filename in
  if bool_decide (filename = []) || is_dir w k
     || negb (is_dir w (Qt.path os k)) || negb (may_create (env w) k)
  then (false, w)
  else (true, with_nodes w (<[k := File [] (exec_at w k)]> (nodes w))).

(** [QTextStream::flush()] on a stream over the file: the buffered text
    reaches the file only when the file is open. *)
Definition QTextStream_flush (os : Platform) (filename : QString)
    (opened : bool) (text : QString) (w : World) : World :=
  let k := key os w filename in
  if opened
  then with_nodes w (<[k := File (encode (env w) text) (exec_at w k)]> (nodes w))
  else w.

(** [QFile::setPermissions(permissions() | ExeOwner | ExeGroup | ExeOther)]. *)
Definition QFile_setExecutable (os : Platform) (filename : QString) (w : World)
    : bool * World :=
  let k := key os w filename in
  match nodes w !! k with
  | Some (File d _) =>
      if may_chmod (env w) k
      then (true, with_nodes w (<[k := File d true]> (nodes w)))
      else (false, w)
  | _ => (false, w)
  end.

(** Two worlds agree for a reader of [k]: same working directory, same
    environment, same bytes at [k]. *)
Definition agree_at (k : QString) (w w' : World) : Prop :=
  currentPath w' = currentPath w ∧ env w' = env w ∧
  file_at w' k = file_at w k.

(** An environment that refuses nothing, moves every byte, and uses
    Latin-1 for its codecs. *)
Definition latin1 (s : QString) : QByteArray :=
  map (fun c => match Byte.of_N c with Some b => b | None => x3f end) s.

Definition obliging : Env := {|
  may_mkdir := fun _ => true;
  may_create := fun _ => true;
  accepts := fun _ d => Z.of_nat (length d);
  may_rename := fun _ _ => true;
  temp_suffix := fun _ => QStr "XXXXXX";
  may_read := fun _ => true;
  delivers := fun _ n => n;
  may_chmod := fun _ => true;
  toLocal8Bit := latin1;
  fromUtf8 := map Byte.to_N;
  encode := latin1
|}.

(** The five bytes of [hello]. *)
Definition hello : QByteArray := [x68; x65; x6c; x6c; x6f].

(** A store that holds nothing but the root, in a process started in
    [/home/user]. *)
Definition empty_world : World :=
  {| currentPath := QStr "/home/user"; nodes := ∅; env := obliging |}.

End Store.

(** ** Atomic write and plain read (the throwing family) *)

Import Store.

(** [void ensureExists(const QDir &dir)], for the directory [QDir(dir)]. *)
Definition ensureExists (os : Platform) (dir : QString) : M unit :=
  fun r =>
    let absolute := Qt.absolutePath os (currentPath (cur r)) dir in
    (made ← prim (mkpath absolute);
     if negb made then throw (UnableToCreateDirectory absolute)
     else mret tt) r.

(** [QByteArray::size()]; a [QByteArray] holds at most [INT_MAX] bytes. *)
Definition QByteArray_size (data : QByteArray) : Z :=
  Z.of_nat (length data).

Definition QByteArray_valid (data : QByteArray) : Prop :=
  (QByteArray_size data <= 2147483647)%Z.

(** [void FS::write(const QString &filename, const QByteArray &data)].
    The destructor of the local [QSaveFile] runs on every way out. *)
Definition write (os : Platform) (filename : QString) (data : QByteArray)
    : M unit :=
  ensureExists os (Qt.path os filename);;
  '(opened, file) ← prim (QSaveFile_open os filename);
  if negb opened then
    prim (QSaveFile_destroy file);;
    throw (CouldNotOpenForWriting filename)
  else
    written ← prim (QSaveFile_write file data);
    if negb (QByteArray_size data =? written)%Z then
      prim (QSaveFile_destroy file);;
      throw (ErrorWritingData filename)
    else
      '(committed, file) ← prim (QSaveFile_commit file);
      if negb committed then
        prim (QSaveFile_destroy file);;
        throw (ErrorCommitting filename)
      else
        prim (QSaveFile_destroy file);;
        mret tt.

(** [QByteArray FS::read(const QString &filename)]. *)
Definition read (os : Platform) (filename : QString) : M QByteArray :=
  opened ← prim (QFile_open_read os filename);
  match opened with
  | None => throw (UnableToOpenForReading filename)
  | Some content =>
      let size := QByteArray_size content in
      let data := QByteArray_fill (to_int size) x00 in
      '(ret, data) ← prim (QFile_read os filename content data size);
      if (ret =? -1)%Z || negb (ret =? size)%Z
      then throw (ErrorReadingData filename)
      else mret data
  end.

(** ** Desktop shortcuts *)

(** [bool FS::createShortCut(location, dest, args, name, icon)]: the three
    branches of the [#if defined Q_OS_LINUX / #elif defined Q_OS_WIN /
    #else] ladder.  On Linux the results of [f.open] and of
    [f.setPermissions] are dropped, as in the source. *)
Definition createShortCut (os : Platform) (location dest : QString)
    (args : list QString) (name icon : QString) (w : World) : bool * World :=
  match os with
  | Linux =>
      let location := PathCombine os location (name ++ QStr ".desktop") in
      let (opened, w1) := QFile_open_write os location w in
      let argstring :=
        if negb (bool_decide (args = []))
        then QStr " '" ++ Qt.join (QStr "' '") args ++ QStr "'"
        else [] in
      let local8 s := fromUtf8 (env w) (toLocal8Bit (env w) s) in
      let text :=
        QStr "[Desktop Entry]" ++ [10] ++
        QStr "Type=Application" ++ [10] ++
        QStr "TryExec=" ++ local8 dest ++ [10] ++
        QStr "Exec=" ++ local8 dest ++ local8 argstring ++ [10] ++
        QStr "Name=" ++ local8 name ++ [10] ++
        QStr "Icon=" ++ local8 icon ++ [10] in
      let w2 := QTextStream_flush os location opened text w1 in
      let (_, w3) := QFile_setExecutable os location w2 in
      (true, w3)
  | Windows => (false, w)
  | OtherOS => (false, w)
  end.

(** ** Unique directory names *)

(** The name tried when the counter is [num]. *)
Definition dirName_at (baseName : QString) (num : Z) : QString :=
  if (num =? 0)%Z then baseName else baseName ++ Qt.number num.

(** The [do ... while] loop of [FS::DirNameFromString]; [QFileInfo_exists]
    answers [QFileInfo(path).exists()].  [fuel] bounds the number of
    iterations; [None] means the bound was too small. *)
Fixpoint DirNameFromString_loop (os : Platform)
    (QFileInfo_exists : QString -> bool) (fuel : nat) (num : Z)
    (baseName inDir : QString) : option QString :=
  match fuel with
  | O => None
  | S fuel' =>
      let dirName := dirName_at baseName num in
      if (9000 <? num)%Z then Some []
      else
        let num' := to_int (num + 1) in
        if QFileInfo_exists (PathCombine os inDir dirName)
        then DirNameFromString_loop os QFileInfo_exists fuel' num' baseName inDir
        else Some dirName
  end.

(** [QString FS::DirNameFromString(QString string, QString inDir)]. *)
Definition DirNameFromString (os : Platform)
    (QFileInfo_exists : QString -> bool) (string inDir : QString)
    : option QString :=
  let num := 0%Z in
  let baseName := RemoveInvalidFilenameChars string 45 in
  DirNameFromString_loop os QFileInfo_exists (Z.to_nat 9002) num baseName inDir.

(** ** Recursive copy (the boolean family) *)

(** [copyPath] reads the source tree and sends requests that change the
    destination.  The source is taken as one snapshot, a finite tree; the
    requests are recorded with the answers of the system, which may depend
    on everything that happened before. *)

Module Walk.

(** What [QFileInfo] reports about an entry of the source tree.  [link] is
    [Some target] when the entry itself is a symbolic link; the
    constructor says what the entry, links followed, turns out to be: a
    regular file, a directory with its entries, or neither (a dangling
    link, a socket, a device). *)
#[local] Unset Elimination Schemes.
Inductive Node :=
| File (link : option QString)
| Dir (link : option QString) (entries : list (QString * Node))
| Other (link : option QString).
#[local] Set Elimination Schemes.

Definition link_of (n : Node) : option QString :=
  match n with
  | File l | Dir l _ | Other l => l
  end.

(** [QFileInfo::isSymLink], [symLinkTarget], [isDir], [isFile]. *)
Definition isSymLink (n : Node) : bool :=
  match link_of n with Some _ => true | None => false end.

Definition symLinkTarget (n : Node) : QString :=
  match link_of n with Some t => t | None => [] end.

Definition isDir (n : Node) : bool :=
  match n with Dir _ _ => true | _ => false end.

Definition isFile (n : Node) : bool :=
  match n with File _ => true | _ => false end.

(** The requests that change the destination, and what the run leaves
    behind: every request with its answer, and the [qCritical] lines. *)
Inductive Call :=
| Mkpath (dirPath : QString)
| Link (target linkName : QString)
| Copy (fileName newName : QString).

Inductive Event :=
| Called (c : Call) (answer : bool)
| Critical (object : QString).

(** The history so far, newest event first. *)
Definition History := list Event.

Definition IO (A : Type) : Type := History -> A * History.

#[global] Instance IO_ret : MRet IO := fun A a h => (a, h).

#[global] Instance IO_bind : MBind IO := fun A B f m h =>
  let (a, h') := m h in f a h'.

Definition qCritical (object : QString) : IO unit :=
  fun h => (tt, Critical object :: h).

(** The per-entry operation, as the specification words it: recreate the
    link, copy the directory, copy the file; anything else fails. *)
Inductive Operation :=
| RecreateLink
| CopyDirectory
| CopyFile
| Unknown.

Definition operation_of (follow_symlinks : bool) (n : Node) : Operation :=
  if negb follow_symlinks && isSymLink n then RecreateLink
  else if isDir n then CopyDirectory
  else if isFile n then CopyFile
  else Unknown.

(** [foreach (QString f, list) body], threading the history. *)
Definition foreach {A S : Type} (body : S -> A -> IO S)
    : list A -> S -> IO S :=
  fix go (l : list A) (s : S) : IO S :=
    match l with
    | [] => mret s
    | x :: l' => s' ← body s x; go l' s'
    end.

(** The list of what each element yields, in order. *)
Fixpoint collect {A B : Type} (f : A -> IO B) (l : list A) : IO (list B) :=
  match l with
  | [] => mret []
  | x :: l' => b ← f x; bs ← collect f l'; mret (b :: bs)
  end.

Section Copy.

Variable os : Platform.

(** The system's answer to a request, given everything that happened
    before it. *)
Variable answer : History -> Call -> bool.

Definition call (c : Call) : IO bool :=
  fun h => let r := answer h c in (r, Called c r :: h).

(** [bool FS::ensureFolderPathExists(QString foldernamepath)].
    [QFileInfo::filePath()] is the name as it was given; the conversion
    of native separators that it performs on Windows is not modelled. *)
Definition ensureFolderPathExists (foldernamepath : QString) : IO bool :=
  let ensuredPath := foldernamepath in
  success ← call (Mkpath ensuredPath);
  mret success.

(** [#if defined Q_OS_WIN32  follow_symlinks = true;  #endif] *)
Definition effective_follow (follow_symlinks : bool) : bool :=
  match os with
  | Windows => true
  | _ => follow_symlinks
  end.

(** The body of the [foreach] loop of [FS::copyPath] for the entry [f],
    which [QFileInfo(inner_src)] describes as [info]; [copyPath] is the
    recursive call. *)
Definition copyPath_entry
    (copyPath : Node -> QString -> QString -> bool -> IO bool)
    (src dst : QString) (follow_symlinks : bool)
    (OK : bool) (entry : QString * Node) : IO bool :=
  let (f, info) := entry in
  let inner_src := src ++ [Qt.separator os] ++ f in
  let inner_dst := dst ++ [Qt.separator os] ++ f in
  if negb follow_symlinks && isSymLink info then
    r ← call (Link (symLinkTarget info) inner_dst);
    mret (OK && r)
  else if isDir info then
    r ← copyPath info inner_src inner_dst follow_symlinks;
    mret (OK && r)
  else if isFile info then
    r ← call (Copy inner_src inner_dst);
    mret (OK && r)
  else
    qCritical inner_src;;
    mret false.

(** [FS::copyPath] once [QDir dir(src)] is known to denote [dir]. *)
Fixpoint copyPath_in (dir : Node) (src dst : QString) (follow_symlinks : bool)
    {struct dir} : IO bool :=
  let follow_symlinks := effective_follow follow_symlinks in
  match dir with
  | Dir _ entries =>
      made ← ensureFolderPathExists dst;
      if negb made then mret false
      else
        let OK := true in
        foreach
          (fun OK entry =>
             copyPath_entry copyPath_in src dst follow_symlinks OK entry)
          entries OK
  | _ => mret false
  end.

(** [bool FS::copyPath(const QString &src, const QString &dst,
    bool follow_symlinks)]; [stat] is the file system as [QDir] and
    [QFileInfo] see it. *)
Definition copyPath (stat : QString -> option Node)
    (src dst : QString) (follow_symlinks : bool) : IO bool :=
  match stat src with
  | Some dir => copyPath_in dir src dst follow_symlinks
  | None => mret false
  end.

(** [QDir(src).exists()]. *)
Definition QDir_exists (stat : QString -> option Node) (src : QString)
    : bool :=
  match stat src with
  | Some dir => isDir dir
  | None => false
  end.

(** The success of the operation on one entry, as the specification
    words it. *)
Definition entry_success (src dst : QString) (follow_symlinks : bool)
    (entry : QString * Node) : IO bool :=
  let (f, info) := entry in
  let inner_src := src ++ [Qt.separator os] ++ f in
  let inner_dst := dst ++ [Qt.separator os] ++ f in
  match operation_of follow_symlinks info with
  | RecreateLink => call (Link (symLinkTarget info) inner_dst)
  | CopyDirectory => copyPath_in info inner_src inner_dst follow_symlinks
  | CopyFile => call (Copy inner_src inner_dst)
  | Unknown => qCritical inner_src;; mret false
  end.

End Copy.

(** A source directory for the examples: a file, a socket, a link to a
    directory, and a directory. *)
Definition sample : Node :=
  Dir None
    [(QStr "a", File None);
     (QStr "s", Other None);
     (QStr "l", Dir (Some (QStr "/t")) [(QStr "x", File None)]);
     (QStr "d", Dir None [(QStr "y", File None)])].

(** A system that refuses every file copy and grants everything else. *)
Definition no_copies (h : History) (c : Call) : bool :=
  match c with
  | Copy _ _ => false
  | _ => true
  end.

End Walk.

(** *** What a copy leaves in the history *)

(** A request that was granted. *)
Definition copy_granted (e : Walk.Event) : bool :=
  match e with
  | Walk.Called _ r => r
  | Walk.Critical _ => false
  end.

(** [copyPath_in] on one tree only adds to the history, and returns
    [true] exactly when the tree is a directory and all that it added are
    granted requests. *)
Definition copy_accounted (os : Platform)
    (answer : Walk.History -> Walk.Call -> bool) (dir : Walk.Node) : Prop :=
  forall src dst follow h,
    exists new,
      snd (Walk.copyPath_in os answer dir src dst follow h) = new ++ h /\
      (fst (Walk.copyPath_in os answer dir src dst follow h) = true <->
       Walk.isDir dir = true /\ forallb copy_granted new = true).

(** A node without what lies behind it: a directory loses its entries. *)
Definition copy_cut (n : Walk.Node) : Walk.Node :=
  match n with
  | Walk.Dir l _ => Walk.Dir l []
  | _ => n
  end.

(** A tree in which every symbolic link has lost what lies behind it. *)
Fixpoint copy_links_cut (n : Walk.Node) : Walk.Node :=
  match n with
  | Walk.Dir l entries =>
      Walk.Dir l
        (map (fun entry : QString * Walk.Node =>
                let (f, info) := entry in
                (f, if Walk.isSymLink info then copy_cut info
                    else copy_links_cut info))
             entries)
  | _ => n
  end.

(** [bool FS::ensureFilePathExists(QString filenamepath)], as a request
    to the system like [Walk.ensureFolderPathExists]. *)
Definition ensureFilePathExists (os : Platform)
    (answer : Walk.History -> Walk.Call -> bool) (filenamepath : QString)
    : Walk.IO bool :=
  let ensuredPath := Qt.path os filenamepath in
  success ← Walk.call answer (Walk.Mkpath ensuredPath);
  mret success.

(** ** Recursive delete (the boolean family) *)

(** [deletePath] walks the tree under a directory and sends requests
    that remove what it finds.  As for [copyPath] the tree is one
    snapshot; the entries of a directory stand in the order in which
    [QDir::entryInfoList(..., QDir::DirsFirst)] reports them. *)

Module Sweep.

(** What the walk asks about an entry itself: [QFileInfo::isSymLink], and
    on Windows the bit [FILE_ATTRIBUTE_REPARSE_POINT] of
    [GetFileAttributesW]. *)
Record Attributes := { symLink : bool; reparsePoint : bool }.

(** An entry: its own attributes and what it is, links followed. *)
#[local] Unset Elimination Schemes.
Inductive Node :=
| File (a : Attributes)
| Dir (a : Attributes) (entries : list (QString * Node))
| Other (a : Attributes).
#[local] Set Elimination Schemes.

Definition attributes (n : Node) : Attributes :=
  match n with
  | File a | Dir a _ | Other a => a
  end.

Definition isSymLink (n : Node) : bool := symLink (attributes n).

Definition isReparsePoint (n : Node) : bool := reparsePoint (attributes n).

Definition isDir (n : Node) : bool :=
  match n with Dir _ _ => true | _ => false end.

Definition isFile (n : Node) : bool :=
  match n with File _ => true | _ => false end.

(** The requests: [QFile::remove] and [QDir::rmdir]. *)
Inductive Call :=
| Remove (fileName : QString)
| Rmdir (dirName : QString).

Inductive Event :=
| Called (c : Call) (answer : bool)
| Critical (object : QString).

Definition History := list Event.

Definition IO (A : Type) : Type := History -> A * History.

#[global] Instance IO_ret : MRet IO := fun A a h => (a, h).

#[global] Instance IO_bind : MBind IO := fun A B f m h =>
  let (a, h') := m h in f a h'.

Definition qCritical (object : QString) : IO unit :=
  fun h => (tt, Critical object :: h).

(** [for (QFileInfo info : allEntries) body], threading the history. *)
Definition foreach {A S : Type} (body : S -> A -> IO S)
    : list A -> S -> IO S :=
  fix go (l : list A) (s : S) : IO S :=
    match l with
    | [] => mret s
    | x :: l' => s' ← body s x; go l' s'
    end.

(** [info.absoluteFilePath()] for the entry [name] of the directory whose
    absolute path is [dir]. *)
Definition absoluteFilePath (dir name : QString) : QString :=
  if bool_decide (dir = [Qt.slash]) then Qt.slash :: name
  else dir ++ [Qt.slash] ++ name.

Section Delete.

Variable os : Platform.
Variable answer : History -> Call -> bool.

Definition call (c : Call) : IO bool :=
  fun h => let r := answer h c in (r, Called c r :: h).

(** The part of the loop body that both platforms share: the chain
    [else if (info.isDir()) ... else if (info.isFile()) ... else ...]. *)
Definition deletePath_plain (deletePath : Node -> QString -> IO bool)
    (OK : bool) (info : Node) (path : QString) : IO bool :=
  if isDir info then
    r ← deletePath info path;
    mret (OK && r)
  else if isFile info then
    r ← call (Remove path);
    mret (OK && r)
  else
    qCritical path;;
    mret false.

(** The body of the loop of [FS::deletePath].  Under [Q_OS_WIN32] a
    reparse point is removed as a file or as a directory and is otherwise
    passed over; elsewhere a symbolic link is removed as a file. *)
Definition deletePath_entry (deletePath : Node -> QString -> IO bool)
    (dir : QString) (OK : bool) (entry : QString * Node) : IO bool :=
  let (name, info) := entry in
  let path := absoluteFilePath dir name in
  match os with
  | Windows =>
      if isReparsePoint info then
        if isFile info then
          r ← call (Remove path);
          mret (OK && r)
        else if isDir info then
          r ← call (Rmdir path);
          mret (OK && r)
        else mret OK
      else deletePath_plain deletePath OK info path
  | _ =>
      if isSymLink info then
        r ← call (Remove path);
        mret (OK && r)
      else deletePath_plain deletePath OK info path
  end.

(** [FS::deletePath] once [QDir dir(path)] is known to denote [dir],
    whose [absolutePath()] is [path]. *)
Fixpoint deletePath_in (dir : Node) (path : QString) {struct dir} : IO bool :=
  let OK := true in
  match dir with
  | Dir _ allEntries =>
      OK ← foreach
             (fun OK entry => deletePath_entry deletePath_in path OK entry)
             allEntries OK;
      r ← call (Rmdir path);
      mret (OK && r)
  | _ => mret OK
  end.

(** [bool FS::deletePath(QString path)] in a process whose working
    directory is [currentPath]. *)
Definition deletePath (stat : QString -> option Node)
    (currentPath path : QString) : IO bool :=
  match stat path with
  | Some dir => deletePath_in dir (Qt.absolutePath os currentPath path)
  | None => mret true
  end.

(** The entry is removed as a link, without a look behind it. *)
Definition removed_as_link (info : Node) : bool :=
  match os with
  | Windows => isReparsePoint info
  | _ => isSymLink info
  end.

End Delete.

Definition granted (e : Event) : bool :=
  match e with
  | Called _ r => r
  | Critical _ => false
  end.

Definition cut (n : Node) : Node :=
  match n with
  | Dir a _ => Dir a []
  | _ => n
  end.

(** A tree in which every link has lost what lies behind it. *)
Fixpoint links_cut (os : Platform) (n : Node) : Node :=
  match n with
  | Dir a entries =>
      Dir a
        (map (fun entry : QString * Node =>
                let (f, info) := entry in
                (f, if removed_as_link os info then cut info
                    else links_cut os info))
             entries)
  | _ => n
  end.

(** A directory for the examples: a subdirectory with a file, a link to
    a directory that holds a file, and a file. *)
Definition plain : Attributes := {| symLink := false; reparsePoint := false |}.

Definition linked : Attributes := {| symLink := true; reparsePoint := true |}.

Definition sample : Node :=
  Dir plain
    [(QStr "d", Dir plain [(QStr "y", File plain)]);
     (QStr "l", Dir linked [(QStr "precious", File plain)]);
     (QStr "a", File plain)].

End Sweep.

(** [deletePath_in] on one tree only adds to the history, and returns
    [true] exactly when all that it added are granted requests. *)
Definition delete_accounted (os : Platform)
    (answer : Sweep.History -> Sweep.Call -> bool) (dir : Sweep.Node)
    : Prop :=
  forall path h,
    exists new,
      snd (Sweep.deletePath_in os answer dir path h) = new ++ h /\
      (fst (Sweep.deletePath_in os answer dir path h) = true <->
       forallb Sweep.granted new = true).

(** ** More environments for the examples *)

Definition with_env (w : Store.World) (e : Store.Env) : Store.World :=
  {| Store.currentPath := Store.currentPath w;
     Store.nodes := Store.nodes w;
     Store.env := e |}.

(** A system like [Store.obliging] on which no write of more than five
    bytes goes through. *)
Definition small_disk : Store.Env := {|
  Store.may_mkdir := fun _ => true;
  Store.may_create := fun _ => true;
  Store.accepts := fun _ d => Z.of_nat (Nat.min 5 (length d));
  Store.may_rename := fun _ _ => true;
  Store.temp_suffix := fun _ => QStr "XXXXXX";
  Store.may_read := fun _ => true;
  Store.delivers := fun _ n => n;
  Store.may_chmod := fun _ => true;
  Store.toLocal8Bit := Store.latin1;
  Store.fromUtf8 := map Byte.to_N;
  Store.encode := Store.latin1
|}.

(** *** Where the requests point *)



(** ** Locating programs and folders *)

(** [QString FS::ResolveExecutable(QString path)].  The parameters stand
    for [QStandardPaths::findExecutable] and for [exists()],
    [isExecutable()] and [absoluteFilePath()] of [QFileInfo]. *)
Definition ResolveExecutable (findExecutable : QString -> QString)
    (QFileInfo_exists QFileInfo_isExecutable : QString -> bool)
    (QFileInfo_absoluteFilePath : QString -> QString) (path : QString)
    : QString :=
  if bool_decide (path = []) then []
  else
    let path :=
      if negb (Qt.contains path Qt.slash) then findExecutable path
      else path in
    if negb (QFileInfo_exists path) || negb (QFileInfo_isExecutable path)
    then []
    else QFileInfo_absoluteFilePath path.

(** [bool FS::checkProblemticPathJava(QDir folder)], for the directory
    [QDir(folder)] in a process whose working directory is [currentPath];
    [33] is the exclamation mark. *)
Definition checkProblemticPathJava (os : Platform)
    (currentPath folder : QString) : bool :=
  let pathfoldername := Qt.absolutePath os currentPath folder in
  Qt.contains pathfoldername 33.

(** [void FS::openDirInDefaultProgram(QString path, bool ensureExists)]:
    the store after the call, and the local file handed to
    [QDesktopServices::openUrl]. *)
Definition openDirInDefaultProgram (os : Platform) (path : QString)
    (ensureExists : bool) (w : Store.World) : Store.World * QString :=
  let dir := Qt.absolutePath os (Store.currentPath w) path in
  let w' :=
    if negb (Store.is_dir w dir) then snd (Store.mkpath dir w) else w in
  (w', dir).

(** * Properties *)

(** ** Filename sanitization *)

Lemma RemoveInvalidFilenameChars_step_lookup c (s : QString) i j :
  RemoveInvalidFilenameChars_step c s i !! j =
  if decide (j = i) then sanitized_char c <$> s !! j else s !! j.
Proof.
  unfold RemoveInvalidFilenameChars_step.
  case_decide as Hj; [subst j|].
  - destruct (s !! i) as [ch|] eqn:Hi; [|by rewrite Hi].
    unfold sanitized_char; cbn [fmap option_fmap option_map].
    destruct (Qt.contains badFilenameChars ch); [|done].
    apply list_lookup_insert_eq. by eapply lookup_lt_Some.
  - destruct (s !! i) as [ch|]; [|done].
    destruct (Qt.contains badFilenameChars ch); [|done].
    by apply list_lookup_insert_ne.
Qed.

Lemma RemoveInvalidFilenameChars_loop_lookup c n : ∀ i (s : QString) j,
  foldl (RemoveInvalidFilenameChars_step c) s (seq i n) !! j =
  if decide (i ≤ j < i + n)%nat then sanitized_char c <$> s !! j else s !! j.
Proof.
  induction n as [|n IH]; intros i s j; simpl.
  - case_decide; [lia|done].
  - rewrite IH, RemoveInvalidFilenameChars_step_lookup.
    repeat case_decide; try lia; done.
Qed.

Lemma RemoveInvalidFilenameChars_map (s : QString) c :
  RemoveInvalidFilenameChars s c = map (sanitized_char c) s.
Proof.
  apply list_eq; intros j. unfold RemoveInvalidFilenameChars.
  rewrite RemoveInvalidFilenameChars_loop_lookup, list_lookup_fmap.
  case_decide as Hj; [done|].
  rewrite lookup_ge_None_2 by lia. done.
Qed.

Lemma sanitized_char_idem c ch :
  sanitized_char c (sanitized_char c ch) = sanitized_char c ch.
Proof.
  unfold sanitized_char.
  destruct (Qt.contains badFilenameChars ch) eqn:Hch; rewrite ?Hch; [|done].
  by destruct (Qt.contains badFilenameChars c).
Qed.

(** C6. [RemoveInvalidFilenameChars(s, c)] has the length of [s], and its
    character at every index is [c] where the character of [s] belongs to
    the forbidden set [badFilenameChars], and the character of [s]
    otherwise; the forbidden set is the double quote (code 34) followed by
    the nine characters [\/?<>:*|!]. *)
Theorem RemoveInvalidFilenameChars_spec (s : QString) (c : QChar) :
  length (RemoveInvalidFilenameChars s c) = length s ∧
  (∀ i : nat,
     RemoveInvalidFilenameChars s c !! i =
     (λ ch, if Qt.contains badFilenameChars ch then c else ch) <$> s !! i) ∧
  badFilenameChars = 34 :: QStr "\/?<>:*|!".
Proof.
  rewrite RemoveInvalidFilenameChars_map. split; [|split].
  - apply length_map.
  - intros i. by rewrite list_lookup_fmap.
  - reflexivity.
Qed.

(** C10. For a replacement character outside the forbidden set,
    sanitizing twice gives the same string as sanitizing once. *)
Theorem RemoveInvalidFilenameChars_idempotent (s : QString) (c : QChar) :
  Qt.contains badFilenameChars c = false →
  RemoveInvalidFilenameChars (RemoveInvalidFilenameChars s c) c =
  RemoveInvalidFilenameChars s c.
Proof.
  intros _. rewrite !RemoveInvalidFilenameChars_map, map_map.
  apply map_ext; intros ch. apply sanitized_char_idem.
Qed.

Lemma RemoveInvalidFilenameChars_idempotent_witness :
  Qt.contains badFilenameChars 45 = false ∧
  RemoveInvalidFilenameChars (RemoveInvalidFilenameChars (QStr "a/b:c") 45) 45 =
  RemoveInvalidFilenameChars (QStr "a/b:c") 45.
Proof.
  split; [reflexivity|].
  apply (RemoveInvalidFilenameChars_idempotent (QStr "a/b:c") 45). reflexivity.
Defined.

(** ** Path utilities *)

(** The examples of the Qt documentation of [QDir::cleanPath]. *)
Example cleanPath_documented :
  Qt.cleanPath Linux (QStr "./local") = QStr "local" ∧
  Qt.cleanPath Linux (QStr "local/../bin") = QStr "bin" ∧
  Qt.cleanPath Linux (QStr "/local/usr/../bin") = QStr "/local/bin".
Proof. by vm_compute. Qed.

(** What [QDir::cleanPath] leaves of the segments: no empty segment and
    no [.]. *)
Lemma normalize_segments_clean segs :
  Forall (λ seg, seg ≠ [] ∧ seg ≠ Qt.dot) (Qt.normalize_segments segs).
Proof.
  unfold Qt.normalize_segments. apply Forall_rev.
  assert (∀ kept, Forall (λ seg, seg ≠ [] ∧ seg ≠ Qt.dot) kept →
    Forall (λ seg, seg ≠ [] ∧ seg ≠ Qt.dot) (foldl Qt.push_segment kept segs))
    as H; [|by apply H].
  induction segs as [|seg segs IH]; intros kept Hkept; simpl; [done|].
  apply IH. unfold Qt.push_segment.
  destruct (bool_decide (seg = [])) eqn:He; simpl; [done|].
  destruct (bool_decide (seg = Qt.dot)) eqn:Hd; simpl; [done|].
  apply bool_decide_eq_false in He, Hd.
  destruct (bool_decide (seg = Qt.dotdot)).
  - destruct kept as [|top rest]; [by repeat constructor|].
    destruct (bool_decide (top = Qt.dotdot)).
    + by constructor.
    + by inversion Hkept.
  - by constructor.
Qed.





(** Inside the working directory the path becomes relative, far from it
    the path becomes absolute. *)
Example NormalizePath_inside_outside :
  NormalizePath Linux (QStr "/home/user") (QStr "/home/user/docs/x")
    = QStr "docs/x" ∧
  NormalizePath Linux (QStr "/home/user") (QStr "docs/../x") = QStr "x" ∧
  NormalizePath Linux (QStr "/home/user") (QStr "/etc/x") = QStr "/etc/x".
Proof. by vm_compute. Qed.

(** C8 (the code at the failing input). With the working directory
    [/home/user], the path [/home/username/x] is its own absolute form and
    is not inside the working directory, yet [NormalizePath] returns the
    relative path [../username/x]. *)
Theorem NormalizePath_sibling_prefix :
  Qt.absolutePath Linux (QStr "/home/user") (QStr "/home/username/x")
    = QStr "/home/username/x" ∧
  inside (QStr "/home/user") (QStr "/home/username/x") = false ∧
  NormalizePath Linux (QStr "/home/user") (QStr "/home/username/x")
    = QStr "../username/x".
Proof. by vm_compute. Qed.

(** ** The file store *)

Section StoreFacts.

Implicit Types (w : World) (k t : QString).

Lemma agree_at_refl k w : agree_at k w w.
Proof. by repeat split. Qed.

Lemma agree_at_trans k w1 w2 w3 :
  agree_at k w1 w2 → agree_at k w2 w3 → agree_at k w1 w3.
Proof. unfold agree_at. intros (-> & -> & ->) (-> & -> & ->). done. Qed.

Lemma agree_at_insert_ne k t n w :
  t ≠ k → agree_at k w (with_nodes w (<[t := n]> (nodes w))).
Proof.
  intros Hne. repeat split. unfold file_at; simpl.
  by rewrite lookup_insert_ne.
Qed.

Lemma agree_at_insert_dir k d w :
  nodes w !! d = None → agree_at k w (with_nodes w (<[d := Dir]> (nodes w))).
Proof.
  intros Hd. repeat split. unfold file_at; simpl.
  destruct (decide (d = k)) as [->|Hne].
  - by rewrite lookup_insert_eq, Hd.
  - by rewrite lookup_insert_ne.
Qed.

Lemma agree_at_delete_ne k t w :
  t ≠ k → agree_at k w (with_nodes w (delete t (nodes w))).
Proof.
  intros Hne. repeat split. unfold file_at; simpl.
  by rewrite lookup_delete_ne.
Qed.

Lemma agree_at_set_executable k t d e w :
  nodes w !! t = Some (File d e) →
  agree_at k w (with_nodes w (<[t := File d true]> (nodes w))).
Proof.
  intros Ht. repeat split. unfold file_at; simpl.
  destruct (decide (t = k)) as [->|Hne].
  - by rewrite lookup_insert_eq, Ht.
  - by rewrite lookup_insert_ne.
Qed.

Lemma mkdir_one_agree k acc d :
  agree_at k (snd acc) (snd (mkdir_one acc d)).
Proof.
  destruct acc as [ok w]; simpl. destruct ok; simpl; [|apply agree_at_refl].
  destruct (nodes w !! d) as [[]|] eqn:Hd; simpl; try apply agree_at_refl.
  destruct (may_mkdir (env w) d); simpl; [|apply agree_at_refl].
  by apply agree_at_insert_dir.
Qed.

(** [mkpath] creates directories only where nothing was: no file changes. *)
Lemma mkpath_agree k dirPath w : agree_at k w (snd (mkpath dirPath w)).
Proof.
  unfold mkpath. generalize (Qt.chain dirPath); intros ds.
  change w with (snd (true, w)) at 1. generalize (true, w); intros acc.
  revert acc. induction ds as [|d ds IH]; intros acc; simpl.
  - apply agree_at_refl.
  - eapply agree_at_trans; [apply mkdir_one_agree|apply IH].
Qed.

(** The temporary file never has the name of the destination. *)
Lemma temp_name_fresh k (suffix : QString) : k ++ [46] ++ suffix ≠ k.
Proof.
  intros H. apply (f_equal length) in H.
  rewrite !length_app in H. simpl in H. lia.
Qed.

End StoreFacts.

(** ** Atomic write, read *)

Ltac run_monad :=
  unfold mbind, M_bind, mret, M_ret, throw, prim; cbn [cur past fst snd].

Ltac each_seen tac :=
  repeat (apply Forall_cons; split; [tac|]); by apply Forall_nil.

Lemma to_int_small z :
  (-2147483648 <= z <= 2147483647)%Z → to_int z = z.
Proof. intros Hz. unfold to_int. rewrite Z.mod_small; lia. Qed.

Lemma take_size (data : QByteArray) n :
  (QByteArray_size data =? n)%Z = true → take (Z.to_nat n) data = data.
Proof.
  unfold QByteArray_size. intros H%Z.eqb_eq. subst n.
  rewrite Nat2Z.id. apply firstn_all.
Qed.

(** What [write] leaves behind, whichever way it ends. *)
Lemma write_outcome os filename data w :
  let out := write os filename data (start w) in
  let k := key os w filename in
  currentPath (cur out.2) = currentPath w ∧ env (cur out.2) = env w ∧
  match out.1 with
  | Ok _ => file_at (cur out.2) k = Some data
  | Throw _ => file_at (cur out.2) k = file_at w k
  end ∧
  Forall (λ w', file_at w' k = file_at w k ∨ file_at w' k = Some data)
         (observable out.2).
Proof.
  intros out k. subst out. unfold write, ensureExists, observable, start.
  run_monad.
  pose proof (mkpath_agree k
    (Qt.absolutePath os (currentPath w) (Qt.path os filename)) w) as H1.
  destruct (mkpath _ w) as [made w1]. cbn [snd] in H1.
  destruct H1 as (Hc1 & He1 & Hf1).
  assert (Hk1 : key os w1 filename = k) by (unfold k, key; by rewrite Hc1).
  destruct made; cbn [negb cur past fst snd].
  2: { repeat split; try done. each_seen ltac:(left; congruence). }
  unfold QSaveFile_open. rewrite Hk1.
  set (t := k ++ [46] ++ temp_suffix (env w1) k).
  assert (Ht : t ≠ k) by apply temp_name_fresh.
  destruct (_ || _ || _ || _);
    cbn [negb cur past fst snd QSaveFile_destroy tempKey].
  { repeat split; try done. each_seen ltac:(left; congruence). }
  pose proof (agree_at_insert_ne k t (File [] false) w1 Ht)
    as (Hc2 & He2 & Hf2).
  set (w2 := with_nodes w1 _) in *.
  unfold QSaveFile_write; cbn [tempKey].
  set (n := accepts (env w2) t data).
  pose proof (agree_at_insert_ne k t (File (take (Z.to_nat n) data) false)
                w2 Ht) as (Hc3 & He3 & Hf3).
  set (w3 := with_nodes w2 _) in *.
  destruct (QByteArray_size data =? n)%Z eqn:Hn;
    cbn [negb cur past fst snd QSaveFile_destroy tempKey].
  2: { pose proof (agree_at_delete_ne k t w3 Ht) as (Hc4 & He4 & Hf4).
       repeat split; try congruence. each_seen ltac:(left; congruence). }
  unfold QSaveFile_commit; cbn [tempKey finalKey fileName].
  assert (Hw3 : nodes w3 !! t = Some (File data false)).
  { unfold w3; simpl. rewrite lookup_insert_eq. by rewrite take_size. }
  rewrite Hw3.
  destruct (may_rename (env w3) t k);
    cbn [negb cur past fst snd QSaveFile_destroy tempKey].
  - repeat split;
      try (unfold with_nodes at 1; cbn [currentPath env]; congruence).
    + unfold file_at, with_nodes; cbn [nodes]. by rewrite lookup_insert_eq.
    + each_seen ltac:(first [left; congruence
        | right; unfold file_at, with_nodes; cbn [nodes];
          by rewrite lookup_insert_eq]).
  - pose proof (agree_at_delete_ne k t w3 Ht) as (Hc4 & He4 & Hf4).
    repeat split; try congruence. each_seen ltac:(left; congruence).
Qed.

(** What [read] gives for a file that holds [data]. *)
Lemma read_outcome os filename (data : QByteArray) w :
  file_at w (key os w filename) = Some data →
  QByteArray_valid data →
  let out := read os filename (start w) in
  (∀ d, out.1 = Ok d → d = data) ∧
  (may_read (env w) (key os w filename) = true →
   delivers (env w) (key os w filename) (QByteArray_size data) = QByteArray_size data →
   out.1 = Ok data).
Proof.
  intros Hfile Hvalid out. subst out. unfold read, start. run_monad.
  unfold QFile_open_read. rewrite Hfile.
  destruct (may_read _ _); cbn [fst snd cur past].
  2: { split; [intros d [=]|intros [=]]. }
  unfold QFile_read. cbn [fst snd cur past].
  set (ret := delivers _ _ _).
  rewrite to_int_small by (unfold QByteArray_valid, QByteArray_size in *; lia).
  destruct (ret =? -1)%Z eqn:Hm; cbn [orb negb fst].
  { split; [intros d [=]|]. intros _ Hret.
    apply Z.eqb_eq in Hm. unfold QByteArray_size in *. lia. }
  destruct (ret =? QByteArray_size data)%Z eqn:Hs; cbn [negb fst].
  2: { split; [intros d [=]|]. intros _ Hret. apply Z.eqb_neq in Hs. lia. }
  assert (take (length (QByteArray_fill (QByteArray_size data) x00))
            (take (Z.to_nat ret) data ++
             drop (length (take (Z.to_nat ret) data))
                  (QByteArray_fill (QByteArray_size data) x00)) = data) as ->;
    [|split; [by intros d [= <-]|done]].
  rewrite Z.eqb_sym in Hs. rewrite (take_size _ _ Hs).
  unfold QByteArray_fill, QByteArray_size. rewrite Nat2Z.id, length_replicate.
  rewrite drop_ge by (by rewrite length_replicate).
  rewrite app_nil_r. apply firstn_all.
Qed.

(** The scenario [write("/tmp/x/y.txt", "hello")] on an empty store:
    [/tmp/x] is created, the file holds the five bytes, and the store
    holds nothing else, no temporary file in particular. *)
Example write_scenario :
  let out := write Linux (QStr "/tmp/x/y.txt") hello (start empty_world) in
  out.1 = Ok tt ∧
  size (nodes (cur out.2)) = 3%nat ∧
  is_dir (cur out.2) (QStr "/tmp") = true ∧
  is_dir (cur out.2) (QStr "/tmp/x") = true ∧
  file_at (cur out.2) (QStr "/tmp/x/y.txt") = Some hello.
Proof. by vm_compute. Qed.

(** C1. Whatever the system does: when [write] returns, the file at the
    destination holds exactly [data]; when it throws, a reader finds at
    the destination what was there before the call; and in every state
    that was observable while the call ran a reader finds at the
    destination either its old content or all of [data], never a part of
    it. *)
Theorem write_atomic (os : Platform) (filename : QString)
    (data : QByteArray) (w : World) :
  let out := write os filename data (start w) in
  let k := key os w filename in
  match out.1 with
  | Ok _ => file_at (cur out.2) k = Some data
  | Throw _ => file_at (cur out.2) k = file_at w k
  end ∧
  Forall (λ w', file_at w' k = file_at w k ∨ file_at w' k = Some data)
         (observable out.2).
Proof. intros out k. apply (write_outcome os filename data w). Qed.

(** C2. After a [write] of [data] that returned, a [read] of the same
    path cannot return anything but [data], and it does return [data]
    when the system lets the file be opened and delivers it in full; the
    empty buffer included. *)
Theorem write_then_read (os : Platform) (filename : QString)
    (data : QByteArray) (w : World) :
  QByteArray_valid data →
  (write os filename data (start w)).1 = Ok tt →
  let w' := cur (write os filename data (start w)).2 in
  (∀ d, (read os filename (start w')).1 = Ok d → d = data) ∧
  (may_read (env w') (key os w' filename) = true →
   delivers (env w') (key os w' filename) (QByteArray_size data) = QByteArray_size data →
   (read os filename (start w')).1 = Ok data).
Proof.
  intros Hvalid Hok w'.
  destruct (write_outcome os filename data w) as (Hc & He & Hf & _).
  rewrite Hok in Hf. apply read_outcome; [|done].
  unfold w', key. by rewrite Hc.
Qed.

Lemma write_then_read_witness :
  (read Linux (QStr "/tmp/x/y.txt")
     (start (cur (write Linux (QStr "/tmp/x/y.txt") hello
                    (start empty_world)).2))).1 = Ok hello ∧
  (read Linux (QStr "empty")
     (start (cur (write Linux (QStr "empty") []
                    (start empty_world)).2))).1 = Ok [].
Proof.
  split.
  - apply (write_then_read Linux (QStr "/tmp/x/y.txt") hello empty_world);
      [by vm_compute|by vm_compute|by vm_compute|by vm_compute].
  - apply (write_then_read Linux (QStr "empty") [] empty_world);
      [by vm_compute|by vm_compute|by vm_compute|by vm_compute].
Defined.

(** ** Desktop shortcuts *)

(** C9. On Linux [createShortCut] returns [true] for every input; when
    the descriptor file cannot be opened for writing it still returns
    [true], and no file of the store has a byte changed. *)
Theorem createShortCut_linux_true (location dest : QString)
    (args : list QString) (name icon : QString) (w : World) :
  let out := createShortCut Linux location dest args name icon w in
  let file := PathCombine Linux location (name ++ QStr ".desktop") in
  out.1 = true ∧
  ((QFile_open_write Linux file w).1 = false →
   ∀ k, file_at out.2 k = file_at w k).
Proof.
  intros out file. subst out. unfold createShortCut. fold file.
  destruct (QFile_open_write Linux file w) as [opened w1] eqn:Hopen.
  destruct (QFile_setExecutable Linux file _) as [changed w3] eqn:Hexec.
  split; [done|]. cbn [fst snd]. intros -> k.
  assert (w1 = w) as ->.
  { unfold QFile_open_write in Hopen.
    destruct (_ || _ || _ || _); by inversion Hopen. }
  unfold QTextStream_flush, QFile_setExecutable in Hexec.
  destruct (nodes w !! key Linux w file) as [[d e|]|] eqn:Hk;
    try (by inversion Hexec).
  destruct (may_chmod _ _); inversion Hexec; [|done].
  by eapply agree_at_set_executable.
Qed.

Lemma createShortCut_linux_true_witness :
  (createShortCut Linux (QStr "/home/user/Desktop") (QStr "/usr/bin/app")
     [QStr "-l"] (QStr "App") (QStr "app") empty_world).1 = true ∧
  ∀ k, file_at
         (createShortCut Linux (QStr "/home/user/Desktop")
            (QStr "/usr/bin/app") [QStr "-l"] (QStr "App") (QStr "app")
            empty_world).2 k
       = file_at empty_world k.
Proof.
  split.
  - apply (createShortCut_linux_true (QStr "/home/user/Desktop")
             (QStr "/usr/bin/app") [QStr "-l"] (QStr "App") (QStr "app")
             empty_world).
  - apply (createShortCut_linux_true (QStr "/home/user/Desktop")
             (QStr "/usr/bin/app") [QStr "-l"] (QStr "App") (QStr "app")
             empty_world).
    by vm_compute.
Defined.

(** ** Recursive copy *)

Section CopyFacts.

Import Walk.

Variable os : Platform.
Variable answer : History → Call → bool.

Ltac run_io :=
  unfold mbind, IO_bind, mret, IO_ret, call, qCritical; cbn [fst snd].

(** One turn of the loop adds the success of the entry's operation to
    [OK] with [&&], and leaves the history that operation leaves. *)
Lemma copyPath_entry_success src dst follow OK entry h :
  copyPath_entry os answer (copyPath_in os answer) src dst follow OK entry h =
  (OK && (entry_success os answer src dst follow entry h).1,
   (entry_success os answer src dst follow entry h).2).
Proof.
  destruct entry as [f info].
  unfold copyPath_entry, entry_success, operation_of.
  destruct (negb follow && isSymLink info); [by run_io|].
  destruct (isDir info).
  { run_io. by destruct (copyPath_in _ _ _ _ _ _ _). }
  destruct (isFile info); [by run_io|].
  run_io. by rewrite andb_false_r.
Qed.

(** The whole loop: [OK] ends as the conjunction of its initial value and
    of the successes of all entries, each run in turn. *)
Lemma foreach_copyPath_entry src dst follow entries : ∀ OK h,
  foreach (λ OK entry,
      copyPath_entry os answer (copyPath_in os answer) src dst follow OK entry)
    entries OK h =
  (OK && forallb id (collect (entry_success os answer src dst follow)
                       entries h).1,
   (collect (entry_success os answer src dst follow) entries h).2).
Proof.
  induction entries as [|entry entries IH]; intros OK h; cbn [foreach collect].
  - run_io. by rewrite andb_true_r.
  - run_io. rewrite copyPath_entry_success.
    destruct (entry_success _ _ _ _ _ entry h) as [r h1]; cbn [fst snd].
    rewrite IH.
    destruct (collect _ entries h1) as [rs h2]; cbn [fst snd forallb id].
    by rewrite andb_assoc.
Qed.

Lemma collect_length {A B} (f : A → IO B) (l : list A) : ∀ h,
  length (collect f l h).1 = length l.
Proof.
  induction l as [|x l IH]; intros h; cbn [collect]; [done|].
  run_io. destruct (f x h) as [b h1].
  specialize (IH h1). destruct (collect f l h1) as [bs h2].
  cbn [fst length] in *. by rewrite IH.
Qed.

Lemma copyPath_in_dir link entries src dst follow h :
  copyPath_in os answer (Dir link entries) src dst follow h =
  if answer h (Mkpath dst)
  then foreach (λ OK entry,
           copyPath_entry os answer (copyPath_in os answer) src dst
             (effective_follow os follow) OK entry)
         entries true (Called (Mkpath dst) true :: h)
  else (false, Called (Mkpath dst) false :: h).
Proof.
  cbn [copyPath_in]. unfold ensureFolderPathExists. run_io.
  by destruct (answer h (Mkpath dst)).
Qed.

End CopyFacts.

(** C3 (as stated, refuted). An existing, empty source directory whose
    destination the system refuses to create: there is no per-entry
    operation, so the conjunction of their successes is [true], yet
    [copyPath] returns [false]. *)
Lemma copyPath_destination_refused :
  let answer := λ (_ : Walk.History) (_ : Walk.Call), false in
  let stat := λ _ : QString, Some (Walk.Dir None []) in
  Walk.QDir_exists stat (QStr "src") = true ∧
  (Walk.copyPath Linux answer stat (QStr "src") (QStr "dst") false []).1
    = false ∧
  forallb id
    (Walk.collect
       (Walk.entry_success Linux answer (QStr "src") (QStr "dst") false)
       [] []).1 = true.
Proof. by vm_compute. Qed.

(** C3 (amended). For an existing source directory whose destination
    tree could be created, [copyPath] returns the conjunction of the
    successes of the per-entry operations (link recreation, recursive
    copy, file copy), each entry's operation being run in turn on the
    history left by the entries before it, whatever their results: there
    is one result per entry.  An entry of any other kind counts as a
    failure. *)
Theorem copyPath_conjunction (os : Platform)
    (answer : Walk.History → Walk.Call → bool)
    (stat : QString → option Walk.Node) (src dst : QString)
    (follow_symlinks : bool) (h : Walk.History)
    (link : option QString) (entries : list (QString * Walk.Node)) :
  stat src = Some (Walk.Dir link entries) →
  answer h (Walk.Mkpath dst) = true →
  let follow := Walk.effective_follow os follow_symlinks in
  let results :=
    Walk.collect (Walk.entry_success os answer src dst follow) entries
      (Walk.Called (Walk.Mkpath dst) true :: h) in
  Walk.copyPath os answer stat src dst follow_symlinks h
    = (forallb id results.1, results.2) ∧
  length results.1 = length entries ∧
  ∀ f info h',
    Walk.operation_of follow info = Walk.Unknown →
    (Walk.entry_success os answer src dst follow (f, info) h').1 = false.
Proof.
  intros Hstat Hmade follow results. split; [|split].
  - unfold Walk.copyPath. rewrite Hstat, copyPath_in_dir, Hmade.
    by rewrite foreach_copyPath_entry.
  - apply collect_length.
  - intros f info h' Hop. unfold Walk.entry_success. by rewrite Hop.
Qed.

(** The source [sample] copied while every file copy is refused: the
    first entry already fails, and the three entries after it are still
    worked on. *)
Lemma copyPath_conjunction_witness :
  Walk.copyPath Linux Walk.no_copies (λ _, Some Walk.sample)
    (QStr "src") (QStr "dst") false [] =
  (false,
   [Walk.Called (Walk.Copy (QStr "src/d/y") (QStr "dst/d/y")) false;
    Walk.Called (Walk.Mkpath (QStr "dst/d")) true;
    Walk.Called (Walk.Link (QStr "/t") (QStr "dst/l")) true;
    Walk.Critical (QStr "src/s");
    Walk.Called (Walk.Copy (QStr "src/a") (QStr "dst/a")) false;
    Walk.Called (Walk.Mkpath (QStr "dst")) true]).
Proof.
  refine (eq_trans (proj1 (copyPath_conjunction Linux Walk.no_copies
    (λ _, Some Walk.sample) (QStr "src") (QStr "dst") false [] None _
    eq_refl eq_refl)) _).
  by vm_compute.
Defined.

(** C4. When the source does not exist as a directory, [copyPath]
    returns [false] and has asked for nothing: no directory was created.
    When the destination tree cannot be created, it returns [false]. *)
Theorem copyPath_refuses (os : Platform)
    (answer : Walk.History → Walk.Call → bool)
    (stat : QString → option Walk.Node) (src dst : QString)
    (follow_symlinks : bool) (h : Walk.History) :
  (Walk.QDir_exists stat src = false →
   Walk.copyPath os answer stat src dst follow_symlinks h = (false, h)) ∧
  (answer h (Walk.Mkpath dst) = false →
   (Walk.copyPath os answer stat src dst follow_symlinks h).1 = false).
Proof.
  unfold Walk.QDir_exists, Walk.copyPath. split.
  - destruct (stat src) as [[]|]; try done.
  - intros Hmade. destruct (stat src) as [[| link entries |]|]; try done.
    by rewrite copyPath_in_dir, Hmade.
Qed.

Lemma copyPath_refuses_witness :
  Walk.copyPath Linux Walk.no_copies (λ _, None) (QStr "nowhere") (QStr "dst")
    false [] = (false, []) ∧
  (Walk.copyPath Linux (λ _ _, false) (λ _, Some Walk.sample) (QStr "src")
     (QStr "dst") false []).1 = false.
Proof.
  split.
  - apply (copyPath_refuses Linux Walk.no_copies (λ _, None) (QStr "nowhere")
             (QStr "dst") false []). reflexivity.
  - apply (copyPath_refuses Linux (λ _ _, false) (λ _, Some Walk.sample)
             (QStr "src") (QStr "dst") false []). reflexivity.
Defined.

(** ** Unique directory names *)

Section UniqueNames.

Variable os : Platform.
Variable QFileInfo_exists : QString → bool.
Variables baseName inDir : QString.

(** The answer of the probe with counter [j]. *)
Let probe (j : Z) : bool :=
  QFileInfo_exists (PathCombine os inDir (dirName_at baseName j)).

(** The loop stops at the first counter whose name is unused. *)
Lemma DirNameFromString_loop_found (n : nat) : ∀ (num : Z) (fuel : nat),
  (0 ≤ num)%Z → (num + Z.of_nat n ≤ 9000)%Z → (n < fuel)%nat →
  (∀ j, (num ≤ j < num + Z.of_nat n)%Z → probe j = true) →
  probe (num + Z.of_nat n) = false →
  DirNameFromString_loop os QFileInfo_exists fuel num baseName inDir =
  Some (dirName_at baseName (num + Z.of_nat n)).
Proof.
  induction n as [|n IH]; intros num fuel Hnum Hle Hfuel Hused Hfree;
    (destruct fuel as [|fuel]; [lia|]); cbn [DirNameFromString_loop].
  - replace (num + Z.of_nat 0)%Z with num in * by lia.
    replace (9000 <? num)%Z with false by lia.
    fold (probe num). by rewrite Hfree.
  - replace (9000 <? num)%Z with false by lia.
    fold (probe num). rewrite Hused by lia.
    rewrite to_int_small by lia.
    replace (num + Z.of_nat (S n))%Z with (num + 1 + Z.of_nat n)%Z in * by lia.
    apply IH; try lia; [|done]. intros j Hj. apply Hused. lia.
Qed.

(** The loop gives up once the counter has passed 9000. *)
Lemma DirNameFromString_loop_exhausted (n : nat) : ∀ (num : Z) (fuel : nat),
  (0 ≤ num)%Z → (num + Z.of_nat n = 9001)%Z → (n < fuel)%nat →
  (∀ j, (num ≤ j ≤ 9000)%Z → probe j = true) →
  DirNameFromString_loop os QFileInfo_exists fuel num baseName inDir = Some [].
Proof.
  induction n as [|n IH]; intros num fuel Hnum Hsum Hfuel Hused;
    (destruct fuel as [|fuel]; [lia|]); cbn [DirNameFromString_loop].
  - by replace (9000 <? num)%Z with true by lia.
  - replace (9000 <? num)%Z with false by lia.
    fold (probe num). rewrite Hused by lia.
    rewrite to_int_small by lia.
    apply IH; try lia. intros j Hj. apply Hused. lia.
Qed.

End UniqueNames.

(** C5 (as stated, refuted). In a directory where the first 9000 names
    probed ([a-b], [a-b1], ..., [a-b8999]) are all in use and [a-b9000] is
    not, [DirNameFromString] does not give up: it probes a 9001st time
    and returns [a-b9000]. *)
Lemma DirNameFromString_probes_9001 :
  let QFileInfo_exists := λ p : QString,
    negb (bool_decide (p = QStr "d/a-b9000")) in
  let baseName := RemoveInvalidFilenameChars (QStr "a:b") 45 in
  forallb (λ j, QFileInfo_exists
                  (PathCombine Linux (QStr "d") (dirName_at baseName j)))
          (map Z.of_nat (seq 0 (Z.to_nat 9000))) = true ∧
  DirNameFromString Linux QFileInfo_exists (QStr "a:b") (QStr "d")
    = Some (QStr "a-b9000") ∧
  QStr "a-b9000" ≠ [].
Proof. by vm_compute. Qed.

(** C5 (amended). [DirNameFromString(s, d)] sanitizes [s] into a base
    name (bad characters become [-]) and probes [PathCombine(d, name)]
    for the names base, base1, base2, ... in this order; it returns the
    first name whose path does not exist, as long as its counter is at
    most 9000, and it returns the empty string when base and base1 ...
    base9000 (9001 probes) all exist. *)
Theorem DirNameFromString_spec (os : Platform)
    (QFileInfo_exists : QString → bool) (string inDir : QString) :
  let baseName := RemoveInvalidFilenameChars string 45 in
  let probe := λ j : Z,
    QFileInfo_exists (PathCombine os inDir (dirName_at baseName j)) in
  (∀ k : Z, (0 ≤ k ≤ 9000)%Z →
     (∀ j, (0 ≤ j < k)%Z → probe j = true) → probe k = false →
     DirNameFromString os QFileInfo_exists string inDir
       = Some (dirName_at baseName k)) ∧
  ((∀ j, (0 ≤ j ≤ 9000)%Z → probe j = true) →
     DirNameFromString os QFileInfo_exists string inDir = Some []).
Proof.
  intros baseName probe. unfold DirNameFromString. fold baseName. split.
  - intros k Hk Hused Hfree.
    rewrite <- (Z.add_0_l k) at 1. rewrite <- (Z2Nat.id k) by lia.
    apply DirNameFromString_loop_found; try lia.
    + intros j Hj. apply Hused. lia.
    + rewrite Z2Nat.id by lia. apply Hfree.
  - intros Hused.
    apply (DirNameFromString_loop_exhausted os QFileInfo_exists baseName inDir
             (Z.to_nat 9001)); try lia.
    intros j Hj. apply Hused. lia.
Qed.

Lemma DirNameFromString_spec_witness :
  DirNameFromString Linux (λ p, bool_decide (p = QStr "dir/foo"))
    (QStr "foo") (QStr "dir") = Some (QStr "foo1") ∧
  DirNameFromString Linux (λ _, true) (QStr "foo") (QStr "dir") = Some [].
Proof.
  split.
  - apply (proj1 (DirNameFromString_spec Linux
             (λ p, bool_decide (p = QStr "dir/foo")) (QStr "foo") (QStr "dir"))
             1%Z); [lia| |reflexivity].
    intros j Hj. replace j with 0%Z by lia. reflexivity.
  - apply (proj2 (DirNameFromString_spec Linux (λ _, true)
             (QStr "foo") (QStr "dir"))).
    reflexivity.
Defined.

(** * Further properties *)

(** ** Filename sanitization, continued *)

Lemma sanitized_char_allowed c ch :
  Qt.contains badFilenameChars c = false →
  Qt.contains badFilenameChars (sanitized_char c ch) = false.
Proof.
  intros Hc. unfold sanitized_char.
  by destruct (Qt.contains badFilenameChars ch) eqn:Hch.
Qed.

Lemma sanitized_allowed (s : QString) (c : QChar) :
  Qt.contains badFilenameChars c = false →
  Forall (λ ch, Qt.contains badFilenameChars ch = false)
         (RemoveInvalidFilenameChars s c).
Proof.
  intros Hc. rewrite RemoveInvalidFilenameChars_map.
  apply Forall_fmap, Forall_true. intros ch. by apply sanitized_char_allowed.
Qed.

(** X1. With a replacement character outside the forbidden set, no
    character of the result is forbidden. *)
Theorem RemoveInvalidFilenameChars_allowed (s : QString) (c : QChar) :
  Qt.contains badFilenameChars c = false →
  Forall (λ ch, Qt.contains badFilenameChars ch = false)
         (RemoveInvalidFilenameChars s c).
Proof. apply sanitized_allowed. Qed.

Lemma RemoveInvalidFilenameChars_allowed_witness :
  Forall (λ ch, Qt.contains badFilenameChars ch = false)
         (RemoveInvalidFilenameChars (QStr "a/b:c?") 45).
Proof.
  apply (RemoveInvalidFilenameChars_allowed (QStr "a/b:c?") 45). reflexivity.
Defined.

(** X2. A string without forbidden characters comes back unchanged,
    whatever the replacement character. *)
Theorem RemoveInvalidFilenameChars_fixed (s : QString) (c : QChar) :
  Forall (λ ch, Qt.contains badFilenameChars ch = false) s →
  RemoveInvalidFilenameChars s c = s.
Proof.
  intros Hs. rewrite RemoveInvalidFilenameChars_map.
  induction Hs as [|ch s Hch _ IH]; [done|].
  cbn [map]. unfold sanitized_char at 1. by rewrite Hch, IH.
Qed.

Lemma RemoveInvalidFilenameChars_fixed_witness :
  RemoveInvalidFilenameChars (QStr "My Instance 1.7") 45
    = QStr "My Instance 1.7".
Proof.
  apply (RemoveInvalidFilenameChars_fixed (QStr "My Instance 1.7") 45).
  by repeat constructor.
Defined.

(** X3. Sanitizing a concatenation is concatenating the sanitized parts:
    the loop looks at one character at a time. *)
Theorem RemoveInvalidFilenameChars_app (s t : QString) (c : QChar) :
  RemoveInvalidFilenameChars (s ++ t) c =
  RemoveInvalidFilenameChars s c ++ RemoveInvalidFilenameChars t c.
Proof. rewrite !RemoveInvalidFilenameChars_map. apply map_app. Qed.

(** ** Path utilities, continued *)

(** X4. In the three-segment [PathCombine] an empty segment, wherever it
    stands, is skipped: the result is the two-segment combination of the
    other two. *)
Theorem PathCombine3_empty_segment (os : Platform) (a b : QString) :
  PathCombine3 os [] a b = PathCombine os a b ∧
  PathCombine3 os a [] b = PathCombine os a b ∧
  PathCombine3 os a b [] = PathCombine os a b.
Proof.
  unfold PathCombine3. repeat split.
  - by destruct a.
  - unfold PathCombine at 1. by destruct (PathCombine os a b).
Qed.

(** ** Unique directory names, continued *)

Lemma string_of_uint_allowed (d : Decimal.uint) :
  Forall (λ ch, Qt.contains badFilenameChars ch = false)
         (QStr (NilEmpty.string_of_uint d)).
Proof. induction d; cbn; by constructor. Qed.

(** The decimal digits and the minus sign are not forbidden. *)
Lemma number_allowed (n : Z) :
  Forall (λ ch, Qt.contains badFilenameChars ch = false) (Qt.number n).
Proof.
  unfold Qt.number. destruct n; cbn.
  - by repeat constructor.
  - apply string_of_uint_allowed.
  - constructor; [done|]. apply string_of_uint_allowed.
Qed.

Section UniqueNamesTotal.

Variable os : Platform.
Variable QFileInfo_exists : QString → bool.
Variables baseName inDir : QString.

(** From any counter up to 9001 the loop ends within the iterations left
    to it, with the empty string or with a probed name that is unused. *)
Lemma DirNameFromString_loop_ends (n : nat) : ∀ (num : Z) (fuel : nat),
  (0 ≤ num)%Z → (num + Z.of_nat n = 9001)%Z → (n < fuel)%nat →
  ∃ r, DirNameFromString_loop os QFileInfo_exists fuel num baseName inDir
         = Some r ∧
       (r = [] ∨
        ∃ k, (0 ≤ k ≤ 9000)%Z ∧ r = dirName_at baseName k ∧
             QFileInfo_exists (PathCombine os inDir r) = false).
Proof.
  induction n as [|n IH]; intros num fuel Hnum Hsum Hfuel;
    (destruct fuel as [|fuel]; [lia|]); cbn [DirNameFromString_loop].
  - replace (9000 <? num)%Z with true by lia. eauto.
  - replace (9000 <? num)%Z with false by lia.
    destruct (QFileInfo_exists _) eqn:Hprobe.
    + rewrite to_int_small by lia. apply IH; lia.
    + eexists; split; [done|]. right. exists num. repeat split; [lia..|done].
Qed.

End UniqueNamesTotal.

(** X5. [DirNameFromString] always ends within its 9002 iterations, and
    what it returns is either the empty string or a name whose path under
    the parent directory does not exist. *)
Theorem DirNameFromString_unused (os : Platform)
    (QFileInfo_exists : QString → bool) (string inDir : QString) :
  ∃ r, DirNameFromString os QFileInfo_exists string inDir = Some r ∧
       (r = [] ∨ QFileInfo_exists (PathCombine os inDir r) = false).
Proof.
  unfold DirNameFromString.
  destruct (DirNameFromString_loop_ends os QFileInfo_exists
              (RemoveInvalidFilenameChars string 45) inDir
              (Z.to_nat 9001) 0%Z (Z.to_nat 9002))
    as (r & Hr & [->|(k & _ & _ & Hfree)]); try lia; eauto.
Qed.

(** X6. The name returned by [DirNameFromString] never contains a
    forbidden character, whatever the desired name was: no separator, no
    [!], no quote. *)
Theorem DirNameFromString_allowed (os : Platform)
    (QFileInfo_exists : QString → bool) (string inDir r : QString) :
  DirNameFromString os QFileInfo_exists string inDir = Some r →
  Forall (λ ch, Qt.contains badFilenameChars ch = false) r.
Proof.
  unfold DirNameFromString. intros Hr.
  destruct (DirNameFromString_loop_ends os QFileInfo_exists
              (RemoveInvalidFilenameChars string 45) inDir
              (Z.to_nat 9001) 0%Z (Z.to_nat 9002))
    as (r' & Hr' & Hcase); try lia.
  rewrite Hr in Hr'. injection Hr' as <-.
  destruct Hcase as [->|(k & _ & -> & _)]; [done|].
  unfold dirName_at. destruct (k =? 0)%Z.
  - by apply sanitized_allowed.
  - apply Forall_app. split.
    + by apply sanitized_allowed.
    + apply number_allowed.
Qed.

Lemma DirNameFromString_allowed_witness :
  Forall (λ ch, Qt.contains badFilenameChars ch = false) (QStr "a-b-1").
Proof.
  apply (DirNameFromString_allowed Linux
           (λ p, bool_decide (p = QStr "dir/a-b-")) (QStr "a/b!") (QStr "dir")).
  by vm_compute.
Defined.

(** ** Recursive copy, continued *)

(** Induction over a source tree: a directory inherits from all its
    entries. *)
Lemma copy_tree_ind (P : Walk.Node → Prop) :
  (∀ l, P (Walk.File l)) →
  (∀ l entries, Forall (λ entry, P entry.2) entries → P (Walk.Dir l entries)) →
  (∀ l, P (Walk.Other l)) →
  ∀ n, P n.
Proof.
  intros HF HD HO. fix IH 1. intros [l|l entries|l]; [apply HF| |apply HO].
  apply HD. induction entries as [|[f info] entries IHentries];
    constructor; [apply IH|apply IHentries].
Qed.

Section CopyHistory.

Import Walk.

Variable os : Platform.
Variable answer : History → Call → bool.

Ltac run_io :=
  unfold mbind, IO_bind, mret, IO_ret, call, qCritical; cbn [fst snd].

Lemma foreach_copy_accounted src dst follow entries :
  Forall (λ entry, copy_accounted os answer entry.2) entries →
  ∀ OK h,
    ∃ new,
      (foreach (λ OK entry,
           copyPath_entry os answer (copyPath_in os answer) src dst follow
             OK entry) entries OK h).2 = new ++ h ∧
      ((foreach (λ OK entry,
           copyPath_entry os answer (copyPath_in os answer) src dst follow
             OK entry) entries OK h).1 = true ↔
       OK = true ∧ forallb copy_granted new = true).
Proof.
  induction 1 as [|[f info] entries Hinfo _ IH]; intros OK h; cbn [foreach].
  - exists []. run_io. cbn. split; [done|]. split; [done|by intros [? _]].
  - run_io.
    assert (∃ step,
      (copyPath_entry os answer (copyPath_in os answer) src dst follow OK
         (f, info) h).2 = step ++ h ∧
      ((copyPath_entry os answer (copyPath_in os answer) src dst follow OK
         (f, info) h).1 = true ↔
       OK = true ∧ forallb copy_granted step = true)) as (step & Hh & Hr).
    { unfold copyPath_entry.
      destruct (negb follow && isSymLink info).
      { run_io. eexists [_]. split; [done|]. cbn.
        rewrite !andb_true_iff. tauto. }
      destruct (isDir info) eqn:Hdir.
      { run_io.
        destruct (Hinfo (src ++ [Qt.separator os] ++ f)
                    (dst ++ [Qt.separator os] ++ f) follow h)
          as (new & Hnew & Hiff). cbn [snd] in Hnew, Hiff.
        destruct (copyPath_in _ _ _ _ _ _ h) as [r h1]; cbn [fst snd] in *.
        exists new. split; [done|]. rewrite andb_true_iff, Hiff, Hdir.
        tauto. }
      destruct (isFile info).
      { run_io. eexists [_]. split; [done|]. cbn.
        rewrite !andb_true_iff. tauto. }
      run_io. eexists [_]. split; [done|]. cbn. split; [done|].
      by intros [_ ?]. }
    destruct (copyPath_entry _ _ _ _ _ _ OK (f, info) h) as [OK1 h1];
      cbn [fst snd] in *.
    destruct (IH OK1 h1) as (rest & Hh2 & Hr2).
    exists (rest ++ step). split.
    + by rewrite Hh2, Hh, app_assoc.
    + rewrite Hr2, Hr, forallb_app, andb_true_iff. tauto.
Qed.

Lemma copyPath_in_accounted dir : copy_accounted os answer dir.
Proof.
  induction dir as [l|l entries IH|l] using copy_tree_ind;
    intros src dst follow h.
  - exists []. cbn. split; [done|]. split; [done|]. by intros [? _].
  - rewrite copyPath_in_dir. destruct (answer h (Mkpath dst)) eqn:Hmade.
    + destruct (foreach_copy_accounted src dst (effective_follow os follow)
                  entries IH true (Called (Mkpath dst) true :: h))
        as (new & Hh & Hr).
      exists (new ++ [Called (Mkpath dst) true]). split.
      * by rewrite Hh, <- app_assoc.
      * rewrite Hr, forallb_app. cbn. rewrite !andb_true_iff. tauto.
    + eexists [_]. split; [done|]. cbn. split; [done|]. by intros [_ ?].
  - exists []. cbn. split; [done|]. split; [done|]. by intros [? _].
Qed.

(** Whether links are followed decides nothing once the platform is
    Windows or the entry is no link; when they are not followed, what a
    link leads to is never looked at. *)
Lemma foreach_copy_links_cut src dst entries :
  effective_follow os false = false →
  Forall (λ entry, ∀ src dst h,
            copyPath_in os answer (copy_links_cut entry.2) src dst false h =
            copyPath_in os answer entry.2 src dst false h) entries →
  ∀ OK h,
    foreach (λ OK entry,
        copyPath_entry os answer (copyPath_in os answer) src dst false
          OK entry)
      (map (λ entry : QString * Node,
              let (f, info) := entry in
              (f, if isSymLink info then copy_cut info
                  else copy_links_cut info)) entries) OK h =
    foreach (λ OK entry,
        copyPath_entry os answer (copyPath_in os answer) src dst false
          OK entry) entries OK h.
Proof.
  intros Hos. induction 1 as [|[f info] entries Hinfo _ IH]; intros OK h;
    cbn [foreach map]; [done|].
  run_io.
  assert (copyPath_entry os answer (copyPath_in os answer) src dst false OK
            (f, if isSymLink info then copy_cut info else copy_links_cut info)
            h =
          copyPath_entry os answer (copyPath_in os answer) src dst false OK
            (f, info) h) as ->.
  { unfold copyPath_entry. cbn [negb andb].
    destruct (isSymLink info) eqn:Hlink.
    - by destruct info as [[t|]|[t|] es|[t|]].
    - assert (isSymLink (copy_links_cut info) = false) as ->
        by (by destruct info).
      assert (isDir (copy_links_cut info) = isDir info) as ->
        by (by destruct info).
      assert (isFile (copy_links_cut info) = isFile info) as ->
        by (by destruct info).
      destruct (isDir info); [|done].
      run_io. cbn [snd] in Hinfo.
      by rewrite (Hinfo (src ++ [Qt.separator os] ++ f)
                    (dst ++ [Qt.separator os] ++ f) h). }
  destruct (copyPath_entry _ _ _ _ _ _ OK (f, info) h) as [OK1 h1].
  apply IH.
Qed.

Lemma copyPath_in_links_cut dir :
  effective_follow os false = false →
  ∀ src dst h,
    copyPath_in os answer (copy_links_cut dir) src dst false h =
    copyPath_in os answer dir src dst false h.
Proof.
  intros Hos. induction dir as [l|l entries IH|l] using copy_tree_ind;
    intros src dst h; try done.
  cbn [copy_links_cut]. rewrite !copyPath_in_dir, Hos.
  destruct (answer h (Mkpath dst)); [|done].
  by apply foreach_copy_links_cut.
Qed.

End CopyHistory.

(** X7. [copyPath] only adds to the history of requests, and it returns
    [true] exactly when the source exists as a directory and everything
    it added is a granted request: no request was refused and no unknown
    object was reported, at any depth. *)
Theorem copyPath_true_iff_all_granted (os : Platform)
    (answer : Walk.History → Walk.Call → bool)
    (stat : QString → option Walk.Node) (src dst : QString)
    (follow_symlinks : bool) (h : Walk.History) :
  let out := Walk.copyPath os answer stat src dst follow_symlinks h in
  ∃ new, out.2 = new ++ h ∧
    (out.1 = true ↔
     Walk.QDir_exists stat src = true ∧ forallb copy_granted new = true).
Proof.
  unfold Walk.copyPath, Walk.QDir_exists. destruct (stat src) as [dir|].
  - apply copyPath_in_accounted.
  - exists []. cbn. split; [done|]. split; [done|]. by intros [? _].
Qed.

(** X8. When links are not followed (the flag is off and the platform is
    not Windows), what lies behind a symbolic link of the source has no
    influence: [copyPath] makes the same requests and returns the same
    result as on the tree where every link leads to nothing. *)
Theorem copyPath_never_behind_links (os : Platform)
    (answer : Walk.History → Walk.Call → bool)
    (stat : QString → option Walk.Node) (src dst : QString)
    (h : Walk.History) :
  os ≠ Windows →
  Walk.copyPath os answer (λ p, copy_links_cut <$> stat p) src dst false h =
  Walk.copyPath os answer stat src dst false h.
Proof.
  intros Hos. unfold Walk.copyPath.
  destruct (stat src) as [dir|]; cbn [fmap option_fmap option_map]; [|done].
  apply copyPath_in_links_cut. by destruct os.
Qed.

Lemma copyPath_never_behind_links_witness :
  Walk.copyPath Linux Walk.no_copies
    (λ _, copy_links_cut <$> Some Walk.sample) (QStr "src") (QStr "dst")
    false [] =
  Walk.copyPath Linux Walk.no_copies (λ _, Some Walk.sample)
    (QStr "src") (QStr "dst") false [].
Proof.
  apply (copyPath_never_behind_links Linux Walk.no_copies
           (λ _, Some Walk.sample) (QStr "src") (QStr "dst") []).
  discriminate.
Defined.

(** On Windows the flag is without effect: links are always followed. *)
Lemma copyPath_windows_follows (answer : Walk.History → Walk.Call → bool)
    (stat : QString → option Walk.Node) (src dst : QString)
    (follow_symlinks : bool) (h : Walk.History) :
  Walk.copyPath Windows answer stat src dst follow_symlinks h =
  Walk.copyPath Windows answer stat src dst true h.
Proof.
  unfold Walk.copyPath. by destruct (stat src) as [[l|l entries|l]|].
Qed.

(** ** Recursive delete *)

(** Induction over a tree to delete: a directory inherits from all its
    entries. *)
Lemma delete_tree_ind (P : Sweep.Node → Prop) :
  (∀ a, P (Sweep.File a)) →
  (∀ a entries,
     Forall (λ entry, P entry.2) entries → P (Sweep.Dir a entries)) →
  (∀ a, P (Sweep.Other a)) →
  ∀ n, P n.
Proof.
  intros HF HD HO. fix IH 1. intros [a|a entries|a]; [apply HF| |apply HO].
  apply HD. induction entries as [|[f info] entries IHentries];
    constructor; [apply IH|apply IHentries].
Qed.

Section DeleteHistory.

Import Sweep.

Variable os : Platform.
Variable answer : History → Call → bool.

Ltac run_io :=
  unfold mbind, IO_bind, mret, IO_ret, call, qCritical; cbn [fst snd].

Lemma deletePath_in_dir a allEntries path h :
  deletePath_in os answer (Dir a allEntries) path h =
  let walked :=
    foreach (λ OK entry,
        deletePath_entry os answer (deletePath_in os answer) path OK entry)
      allEntries true h in
  let r := answer walked.2 (Rmdir path) in
  (walked.1 && r, Called (Rmdir path) r :: walked.2).
Proof.
  cbn [deletePath_in]. run_io.
  by destruct (foreach _ allEntries true h).
Qed.

(** One request, added to [OK] with [&&]. *)
Lemma one_call_accounted OK c h :
  ∃ step,
    ((call answer c ≫= λ r, mret (OK && r)) h).2 = step ++ h ∧
    (((call answer c ≫= λ r, mret (OK && r)) h).1 = true ↔
     OK = true ∧ forallb granted step = true).
Proof.
  run_io. eexists [_]. split; [done|]. cbn.
  rewrite !andb_true_iff. tauto.
Qed.

Lemma deletePath_plain_accounted OK info path h :
  delete_accounted os answer info →
  ∃ step,
    (deletePath_plain answer (deletePath_in os answer) OK info path h).2
      = step ++ h ∧
    ((deletePath_plain answer (deletePath_in os answer) OK info path h).1
       = true ↔ OK = true ∧ forallb granted step = true).
Proof.
  intros Hinfo. unfold deletePath_plain. destruct (isDir info).
  { run_io. destruct (Hinfo path h) as (new & Hnew & Hiff).
    destruct (deletePath_in _ _ _ _ h) as [r h1]; cbn [fst snd] in *.
    exists new. split; [done|]. rewrite andb_true_iff, Hiff. tauto. }
  destruct (isFile info); [apply one_call_accounted|].
  run_io. eexists [_]. split; [done|]. cbn. split; [done|]. by intros [_ ?].
Qed.

Lemma foreach_delete_accounted path entries :
  Forall (λ entry, delete_accounted os answer entry.2) entries →
  ∀ OK h,
    ∃ new,
      (foreach (λ OK entry,
           deletePath_entry os answer (deletePath_in os answer) path OK entry)
         entries OK h).2 = new ++ h ∧
      ((foreach (λ OK entry,
           deletePath_entry os answer (deletePath_in os answer) path OK entry)
         entries OK h).1 = true ↔
       OK = true ∧ forallb granted new = true).
Proof.
  induction 1 as [|[f info] entries Hinfo _ IH]; intros OK h; cbn [foreach].
  - exists []. run_io. cbn. split; [done|]. split; [done|by intros [? _]].
  - run_io.
    assert (∃ step,
      (deletePath_entry os answer (deletePath_in os answer) path OK
         (f, info) h).2 = step ++ h ∧
      ((deletePath_entry os answer (deletePath_in os answer) path OK
         (f, info) h).1 = true ↔
       OK = true ∧ forallb granted step = true)) as (step & Hh & Hr).
    { unfold deletePath_entry. cbn [snd] in Hinfo.
      pose proof (deletePath_plain_accounted OK info (absoluteFilePath path f)
                    h Hinfo) as Hplain.
      destruct os.
      - by destruct (isSymLink info); [apply one_call_accounted|].
      - destruct (isReparsePoint info); [|done].
        destruct (isFile info); [apply one_call_accounted|].
        destruct (isDir info); [apply one_call_accounted|].
        exists []. run_io. cbn. split; [done|].
        split; [done|by intros [? _]].
      - by destruct (isSymLink info); [apply one_call_accounted|]. }
    destruct (deletePath_entry _ _ _ _ OK (f, info) h) as [OK1 h1];
      cbn [fst snd] in *.
    destruct (IH OK1 h1) as (rest & Hh2 & Hr2).
    exists (rest ++ step). split.
    + by rewrite Hh2, Hh, app_assoc.
    + rewrite Hr2, Hr, forallb_app, andb_true_iff. tauto.
Qed.

Lemma deletePath_in_accounted dir : delete_accounted os answer dir.
Proof.
  induction dir as [a|a entries IH|a] using delete_tree_ind; intros path h.
  - exists []. cbn. done.
  - rewrite deletePath_in_dir. cbn zeta.
    destruct (foreach_delete_accounted path entries IH true h)
      as (new & Hh & Hr).
    destruct (foreach _ entries true h) as [OK h1]; cbn [fst snd] in *.
    exists (Called (Rmdir path) (answer h1 (Rmdir path)) :: new). split.
    + by rewrite Hh.
    + cbn. rewrite !andb_true_iff, Hr. tauto.
  - exists []. cbn. done.
Qed.

Lemma removed_as_link_cut info :
  removed_as_link os (cut info) = removed_as_link os info.
Proof. by destruct info, os. Qed.

Lemma foreach_delete_links_cut path entries :
  Forall (λ entry, ∀ path h,
            deletePath_in os answer (links_cut os entry.2) path h =
            deletePath_in os answer entry.2 path h) entries →
  ∀ OK h,
    foreach (λ OK entry,
        deletePath_entry os answer (deletePath_in os answer) path OK entry)
      (map (λ entry : QString * Node,
              let (f, info) := entry in
              (f, if removed_as_link os info then cut info
                  else links_cut os info)) entries) OK h =
    foreach (λ OK entry,
        deletePath_entry os answer (deletePath_in os answer) path OK entry)
      entries OK h.
Proof.
  induction 1 as [|[f info] entries Hinfo _ IH]; intros OK h;
    cbn [foreach map]; [done|].
  run_io.
  assert (deletePath_entry os answer (deletePath_in os answer) path OK
            (f, if removed_as_link os info then cut info
                else links_cut os info) h =
          deletePath_entry os answer (deletePath_in os answer) path OK
            (f, info) h) as ->.
  { cbn [snd] in Hinfo. unfold deletePath_entry.
    destruct (removed_as_link os info) eqn:Hlink.
    - unfold removed_as_link in Hlink.
      destruct os, info as [a|a es|a]; cbn [cut]; try done;
        [change (isSymLink (Dir a [])) with (isSymLink (Dir a es))
        |change (isReparsePoint (Dir a [])) with (isReparsePoint (Dir a es))
        |change (isSymLink (Dir a [])) with (isSymLink (Dir a es))];
        by rewrite Hlink.
    - assert (isSymLink (links_cut os info) = isSymLink info) as ->
        by (by destruct info).
      assert (isReparsePoint (links_cut os info) = isReparsePoint info) as ->
        by (by destruct info).
      assert (isFile (links_cut os info) = isFile info) as Hfile
        by (by destruct info).
      assert (isDir (links_cut os info) = isDir info) as Hdir
        by (by destruct info).
      assert (deletePath_plain answer (deletePath_in os answer) OK
                (links_cut os info) (absoluteFilePath path f) h =
              deletePath_plain answer (deletePath_in os answer) OK
                info (absoluteFilePath path f) h) as Hplain.
      { unfold deletePath_plain. rewrite Hfile, Hdir.
        destruct (isDir info); [|done]. run_io. by rewrite Hinfo. }
      unfold removed_as_link in Hlink.
      destruct os; rewrite ?Hfile, ?Hdir, Hlink; apply Hplain. }
  destruct (deletePath_entry _ _ _ _ OK (f, info) h) as [OK1 h1].
  apply IH.
Qed.

Lemma deletePath_in_links_cut dir : ∀ path h,
  deletePath_in os answer (links_cut os dir) path h =
  deletePath_in os answer dir path h.
Proof.
  induction dir as [a|a entries IH|a] using delete_tree_ind;
    intros path h; try done.
  cbn [links_cut]. rewrite !deletePath_in_dir. cbn zeta.
  by rewrite foreach_delete_links_cut.
Qed.

End DeleteHistory.

(** X9. [deletePath] only adds to the history of requests, and it
    returns [true] exactly when everything it added is a granted request:
    no [remove] or [rmdir] was refused and no unknown object was
    reported, at any depth.  For a path that is no directory it asks for
    nothing and returns [true]. *)
Theorem deletePath_true_iff_all_granted (os : Platform)
    (answer : Sweep.History → Sweep.Call → bool)
    (stat : QString → option Sweep.Node) (currentPath path : QString)
    (h : Sweep.History) :
  let out := Sweep.deletePath os answer stat currentPath path h in
  (∃ new, out.2 = new ++ h ∧
     (out.1 = true ↔ forallb Sweep.granted new = true)) ∧
  (match stat path with
   | Some dir => Sweep.isDir dir
   | None => false
   end = false → out = (true, h)).
Proof.
  unfold Sweep.deletePath. destruct (stat path) as [dir|]; split.
  - apply deletePath_in_accounted.
  - by destruct dir.
  - by exists [].
  - done.
Qed.

Lemma deletePath_true_iff_all_granted_witness :
  Sweep.deletePath Linux (λ _ _, false) (λ _, None) (QStr "/home/user")
    (QStr "gone") [] = (true, []).
Proof.
  apply (deletePath_true_iff_all_granted Linux (λ _ _, false) (λ _, None)
           (QStr "/home/user") (QStr "gone") []).
  reflexivity.
Defined.

(** X10. [deletePath] never looks behind a link (a symbolic link, or a
    reparse point on Windows) that it finds in the tree: it makes the
    same requests and returns the same result as on the tree where every
    link leads to nothing, so nothing behind a link is ever removed. *)
Theorem deletePath_never_behind_links (os : Platform)
    (answer : Sweep.History → Sweep.Call → bool)
    (stat : QString → option Sweep.Node) (currentPath path : QString)
    (h : Sweep.History) :
  Sweep.deletePath os answer (λ p, Sweep.links_cut os <$> stat p)
    currentPath path h =
  Sweep.deletePath os answer stat currentPath path h.
Proof.
  unfold Sweep.deletePath.
  destruct (stat path) as [dir|]; cbn [fmap option_fmap option_map]; [|done].
  apply deletePath_in_links_cut.
Qed.

(** The directory [sample] deleted on a system that grants everything:
    the subdirectory is emptied and removed, the link is removed as a
    file without a request for what it leads to, and the parent goes
    last. *)
Example deletePath_sample :
  Sweep.deletePath Linux (λ _ _, true) (λ _, Some Sweep.sample)
    (QStr "/home/user") (QStr "inst") [] =
  (true,
   [Sweep.Called (Sweep.Rmdir (QStr "/home/user/inst")) true;
    Sweep.Called (Sweep.Remove (QStr "/home/user/inst/a")) true;
    Sweep.Called (Sweep.Remove (QStr "/home/user/inst/l")) true;
    Sweep.Called (Sweep.Rmdir (QStr "/home/user/inst/d")) true;
    Sweep.Called (Sweep.Remove (QStr "/home/user/inst/d/y")) true]).
Proof. by vm_compute. Qed.

(** ** Atomic write and read, continued *)





(** X12. A [write] that throws after an earlier [write] to the same path
    returned leaves the bytes of the earlier one in the file. *)
Theorem write_failure_keeps_previous (os : Platform) (filename : QString)
    (first second : QByteArray) (w : World) (e : FileSystemException) :
  (write os filename first (start w)).1 = Ok tt →
  let w1 := cur (write os filename first (start w)).2 in
  (write os filename second (start w1)).1 = Throw e →
  file_at (cur (write os filename second (start w1)).2) (key os w filename)
    = Some first.
Proof.
  intros Hfirst w1 Hsecond.
  destruct (write_outcome os filename first w) as (Hc & _ & Hf & _).
  destruct (write_outcome os filename second w1) as (_ & _ & Hf2 & _).
  rewrite Hfirst in Hf. rewrite Hsecond in Hf2. fold w1 in Hc, Hf.
  assert (key os w1 filename = key os w filename) as Hk
    by (unfold key; by rewrite Hc).
  rewrite Hk in Hf2. by rewrite Hf2.
Qed.

Lemma write_failure_keeps_previous_witness :
  let w := with_env empty_world small_disk in
  let w1 := cur (write Linux (QStr "notes.txt") hello (start w)).2 in
  file_at (cur (write Linux (QStr "notes.txt") (hello ++ hello) (start w1)).2)
          (QStr "/home/user/notes.txt") = Some hello.
Proof.
  apply (write_failure_keeps_previous Linux (QStr "notes.txt") hello
           (hello ++ hello) (with_env empty_world small_disk)
           (ErrorWritingData (QStr "notes.txt"))); by vm_compute.
Defined.

(** X13. [read] never changes the store, and on a path where nothing
    exists, or where a directory sits, it throws its open error. *)
Theorem read_missing_file (os : Platform) (filename : QString) (w : World) :
  cur (read os filename (start w)).2 = w ∧
  (nodes w !! key os w filename = None ∨
   nodes w !! key os w filename = Some Dir →
   (read os filename (start w)).1 = Throw (UnableToOpenForReading filename)).
Proof.
  unfold read, start. run_monad. unfold QFile_open_read, QFile_read, file_at.
  destruct (nodes w !! key os w filename) as [[content e|]|] eqn:Hnode.
  - split; [|by intros [?|?]].
    destruct (may_read _ _); cbn [fst snd cur past]; [|done].
    by destruct (_ || _).
  - done.
  - done.
Qed.

Lemma read_missing_file_witness :
  (read Linux (QStr "/tmp/x/y.txt") (start empty_world)).1
    = Throw (UnableToOpenForReading (QStr "/tmp/x/y.txt")).
Proof.
  apply (read_missing_file Linux (QStr "/tmp/x/y.txt") empty_world).
  left. reflexivity.
Defined.

(** ** Directories that must exist *)

Section PathFacts.

Implicit Types (s seg : QString) (segs : list QString).

Lemma split_cons_sep sep s : Qt.split sep (sep :: s) = [] :: Qt.split sep s.
Proof. cbn [Qt.split]. by rewrite N.eqb_refl. Qed.

Lemma split_not_nil sep s : Qt.split sep s ≠ [].
Proof.
  destruct s as [|c s]; cbn [Qt.split]; [done|].
  destruct (c =? sep); [done|]. by destruct (Qt.split sep s).
Qed.

(** No segment of a split contains the separator. *)
Lemma split_segments_free sep s :
  Forall (λ seg, sep ∉ seg) (Qt.split sep s).
Proof.
  induction s as [|c s IH]; cbn [Qt.split].
  - repeat constructor. by intros ?%elem_of_nil.
  - destruct (c =? sep) eqn:Hc.
    + constructor; [by intros ?%elem_of_nil|done].
    + apply N.eqb_neq in Hc.
      destruct (Qt.split sep s) as [|seg segs] eqn:Hsplit;
        [by destruct (split_not_nil sep s)|].
      inversion IH as [|? ? Hseg Hsegs]; subst. constructor; [|done].
      intros [->|?]%elem_of_cons; done.
Qed.

Lemma split_free sep seg : sep ∉ seg → Qt.split sep seg = [seg].
Proof.
  induction seg as [|c seg IH]; intros Hfree; cbn [Qt.split]; [done|].
  replace (c =? sep) with false.
  - rewrite IH; [done|]. intros ?. apply Hfree. by right.
  - symmetry. apply N.eqb_neq. intros ->. apply Hfree. by left.
Qed.

Lemma split_app_sep sep seg s :
  sep ∉ seg → Qt.split sep (seg ++ sep :: s) = seg :: Qt.split sep s.
Proof.
  induction seg as [|c seg IH]; intros Hfree.
  - apply split_cons_sep.
  - cbn [app Qt.split]. replace (c =? sep) with false.
    + rewrite IH; [done|]. intros ?. apply Hfree. by right.
    + symmetry. apply N.eqb_neq. intros ->. apply Hfree. by left.
Qed.

(** Joining separator-free segments and splitting again gives them back. *)
Lemma split_join sep segs :
  segs ≠ [] → Forall (λ seg, sep ∉ seg) segs →
  Qt.split sep (Qt.join [sep] segs) = segs.
Proof.
  intros Hne Hfree. induction Hfree as [|seg segs Hseg Hsegs IH]; [done|].
  destruct segs as [|seg' segs].
  - cbn [Qt.join]. by apply split_free.
  - change (Qt.join [sep] (seg :: seg' :: segs))
      with (seg ++ sep :: Qt.join [sep] (seg' :: segs)).
    rewrite split_app_sep by done. by rewrite IH.
Qed.

Lemma push_segment_sub P kept seg :
  Forall P kept → P seg → Forall P (Qt.push_segment kept seg).
Proof.
  intros Hkept Hseg. unfold Qt.push_segment.
  destruct (_ || _); [done|].
  destruct (bool_decide (seg = Qt.dotdot)); [|by constructor].
  destruct kept as [|top rest]; [by repeat constructor|].
  destruct (bool_decide (top = Qt.dotdot)); [by constructor|].
  by inversion Hkept.
Qed.

Lemma normalize_segments_sub P segs :
  Forall P segs → Forall P (Qt.normalize_segments segs).
Proof.
  intros Hsegs. unfold Qt.normalize_segments. apply Forall_rev.
  assert (∀ kept, Forall P kept → Forall P (foldl Qt.push_segment kept segs))
    as H; [|by apply H].
  induction Hsegs as [|seg segs Hseg _ IH]; intros kept Hkept; cbn [foldl];
    [done|].
  by apply IH, push_segment_sub.
Qed.

(** The segments of a cleaned absolute path are those it was joined
    from. *)
Lemma elements_join segs :
  Forall (λ seg, Qt.slash ∉ seg) segs → Forall (λ seg, seg ≠ []) segs →
  Qt.elements (Qt.slash :: Qt.join [Qt.slash] segs) = segs.
Proof.
  intros Hfree Hfull. unfold Qt.elements. rewrite split_cons_sep.
  rewrite filter_cons_False by (by intros ?).
  destruct segs as [|seg segs]; [done|].
  rewrite split_join by done.
  induction Hfull as [|s l Hs _ IH]; [done|].
  inversion Hfree; subst. rewrite filter_cons_True by done. by rewrite IH.
Qed.

Lemma fromNativeSeparators_absolute os s :
  Qt.isAbsolutePath s = true →
  Qt.isAbsolutePath (Qt.fromNativeSeparators os s) = true.
Proof.
  destruct s as [|c s]; [done|]. cbn. intros ->%N.eqb_eq. by destruct os.
Qed.

(** Cleaning an absolute path gives the root followed by separator-free,
    non-empty segments. *)
Lemma cleanPath_absolute os s :
  Qt.isAbsolutePath s = true →
  ∃ segs, Qt.cleanPath os s = Qt.slash :: Qt.join [Qt.slash] segs ∧
          Forall (λ seg, Qt.slash ∉ seg) segs ∧
          Forall (λ seg, seg ≠ []) segs.
Proof.
  intros Habs. destruct s as [|c s]; [done|].
  unfold Qt.cleanPath. rewrite (fromNativeSeparators_absolute os) by done.
  eexists; split; [done|]. split.
  - apply normalize_segments_sub, split_segments_free.
  - eapply Forall_impl; [apply normalize_segments_clean|]. by intros ? [? _].
Qed.

Lemma absolutePath_absolute os cwd dir :
  Qt.isAbsolutePath cwd = true →
  ∃ segs, Qt.absolutePath os cwd dir = Qt.slash :: Qt.join [Qt.slash] segs ∧
          Forall (λ seg, Qt.slash ∉ seg) segs ∧
          Forall (λ seg, seg ≠ []) segs.
Proof.
  intros Hcwd. unfold Qt.absolutePath.
  destruct (Qt.isAbsolutePath (Qt.fromNativeSeparators os (Qt.QDir_path dir)))
    eqn:Habs.
  - by apply cleanPath_absolute.
  - apply cleanPath_absolute. by destruct cwd.
Qed.

(** The last directory that [mkpath] walks through is its target. *)
Lemma chain_reaches segs :
  segs ≠ [] →
  Forall (λ seg, Qt.slash ∉ seg) segs → Forall (λ seg, seg ≠ []) segs →
  Qt.slash :: Qt.join [Qt.slash] segs
    ∈ Qt.chain (Qt.slash :: Qt.join [Qt.slash] segs).
Proof.
  intros Hne Hfree Hfull. unfold Qt.chain. rewrite elements_join by done.
  apply list_elem_of_fmap. exists (length segs). split.
  - by rewrite firstn_all.
  - apply elem_of_seq. destruct segs; [done|]. cbn. lia.
Qed.

Lemma mkdir_one_keeps acc d d' :
  nodes acc.2 !! d' = Some Dir → nodes (mkdir_one acc d).2 !! d' = Some Dir.
Proof.
  destruct acc as [ok w]; cbn [snd mkdir_one]. intros Hd'.
  destruct ok; cbn [negb]; [|done].
  destruct (nodes w !! d) as [[]|] eqn:Hd; try done.
  destruct (may_mkdir (env w) d); [|done].
  cbn [snd with_nodes nodes]. destruct (decide (d = d')) as [->|Hne].
  - by rewrite lookup_insert_eq.
  - by rewrite lookup_insert_ne.
Qed.

Lemma mkdir_one_made acc d :
  (mkdir_one acc d).1 = true →
  acc.1 = true ∧ nodes (mkdir_one acc d).2 !! d = Some Dir.
Proof.
  destruct acc as [ok w]; cbn [fst snd mkdir_one].
  destruct ok; cbn [negb]; [|done].
  destruct (nodes w !! d) as [[]|] eqn:Hd; try done.
  destruct (may_mkdir (env w) d); [|done].
  cbn [fst snd with_nodes nodes]. by rewrite lookup_insert_eq.
Qed.

Lemma mkdir_fold ds : ∀ acc,
  (foldl mkdir_one acc ds).1 = true →
  acc.1 = true ∧
  (∀ d, nodes acc.2 !! d = Some Dir →
        nodes (foldl mkdir_one acc ds).2 !! d = Some Dir) ∧
  (∀ d, d ∈ ds → nodes (foldl mkdir_one acc ds).2 !! d = Some Dir).
Proof.
  induction ds as [|d ds IH]; intros acc Hok; cbn [foldl] in *.
  - split; [done|]. split; [done|]. by intros d ?%elem_of_nil.
  - destruct (IH _ Hok) as (Hone & Hkeep & Hall).
    destruct (mkdir_one_made _ _ Hone) as (Hacc & Hd).
    split; [done|]. split.
    + intros d' Hd'. by apply Hkeep, mkdir_one_keeps.
    + intros d' [->|Hin]%elem_of_cons; [by apply Hkeep|by apply Hall].
Qed.

Lemma is_dir_lookup w k : nodes w !! k = Some Dir → is_dir w k = true.
Proof. intros H. unfold is_dir. repeat case_match; congruence. Qed.

(** When [mkpath] says [true] the directory is there. *)
Lemma mkpath_made os cwd dir w :
  Qt.isAbsolutePath cwd = true →
  (mkpath (Qt.absolutePath os cwd dir) w).1 = true →
  is_dir (mkpath (Qt.absolutePath os cwd dir) w).2
         (Qt.absolutePath os cwd dir) = true.
Proof.
  intros Hcwd.
  destruct (absolutePath_absolute os cwd dir Hcwd)
    as (segs & -> & Hfree & Hfull).
  intros Hok. destruct segs as [|seg segs]; [done|].
  unfold mkpath in *. destruct (mkdir_fold _ _ Hok) as (_ & _ & Hall).
  apply is_dir_lookup, Hall. by apply chain_reaches.
Qed.

End PathFacts.

(** X14. In a process whose working directory is an absolute path,
    [ensureExists] returns without throwing only if the directory exists
    afterwards; and it never changes the bytes of a file. *)
Theorem ensureExists_postcondition (os : Platform) (dir : QString)
    (w : World) :
  Qt.isAbsolutePath (currentPath w) = true →
  let out := ensureExists os dir (start w) in
  (out.1 = Ok tt →
   is_dir (cur out.2) (Qt.absolutePath os (currentPath w) dir) = true) ∧
  ∀ k, file_at (cur out.2) k = file_at w k.
Proof.
  intros Hcwd out. subst out. unfold ensureExists, start. run_monad.
  pose proof (mkpath_made os (currentPath w) dir w Hcwd) as Hmade.
  pose proof (λ k, mkpath_agree k (Qt.absolutePath os (currentPath w) dir) w)
    as Hagree.
  destruct (mkpath _ w) as [made w1]; cbn [fst snd] in *.
  split.
  - destruct made; cbn [negb fst snd cur]; [|done]. intros _. by apply Hmade.
  - intros k. destruct (Hagree k) as (_ & _ & Hf).
    by destruct made.
Qed.

Lemma ensureExists_postcondition_witness :
  is_dir (cur (ensureExists Linux (QStr "a/b") (start empty_world)).2)
         (QStr "/home/user/a/b") = true.
Proof.
  apply (ensureExists_postcondition Linux (QStr "a/b") empty_world);
    reflexivity.
Defined.

(** X15. [openDirInDefaultProgram] does not look at its [ensureExists]
    argument: a missing directory is created in either case.  With an
    absolute working directory, the directory handed to the desktop
    exists afterwards whenever the system lets it be created, and no
    file has a byte changed. *)
Theorem openDirInDefaultProgram_creates (os : Platform) (path : QString)
    (ensureExists : bool) (w : World) :
  Qt.isAbsolutePath (currentPath w) = true →
  let out := openDirInDefaultProgram os path ensureExists w in
  out = openDirInDefaultProgram os path (negb ensureExists) w ∧
  ((mkpath out.2 w).1 = true → is_dir out.1 out.2 = true) ∧
  ∀ k, file_at out.1 k = file_at w k.
Proof.
  intros Hcwd out. subst out. unfold openDirInDefaultProgram. cbn [fst snd].
  split; [done|]. split.
  - intros Hok. destruct (is_dir w _) eqn:Hdir; cbn [negb]; [done|].
    by apply mkpath_made.
  - intros k. destruct (is_dir w _); cbn [negb]; [done|].
    by destruct (mkpath_agree k (Qt.absolutePath os (currentPath w) path) w)
      as (_ & _ & ?).
Qed.

Lemma openDirInDefaultProgram_creates_witness :
  is_dir (openDirInDefaultProgram Linux (QStr "instances") false
            empty_world).1 (QStr "/home/user/instances") = true.
Proof.
  apply (openDirInDefaultProgram_creates Linux (QStr "instances") false
           empty_world); reflexivity.
Defined.

(** ** Programs and problem paths *)

(** X16. [ResolveExecutable] gives the empty string for the empty name;
    a name with a slash in it is never looked up on the search path; and
    a non-empty result is always the absolute path of a candidate (the
    name itself, or what the search found for a name without slash) that
    exists and is executable. *)
Theorem ResolveExecutable_cases (findExecutable : QString → QString)
    (QFileInfo_exists QFileInfo_isExecutable : QString → bool)
    (QFileInfo_absoluteFilePath : QString → QString) (path : QString) :
  let resolve find :=
    ResolveExecutable find QFileInfo_exists QFileInfo_isExecutable
      QFileInfo_absoluteFilePath in
  resolve findExecutable [] = [] ∧
  (Qt.contains path Qt.slash = true →
   ∀ other, resolve other path = resolve findExecutable path) ∧
  (resolve findExecutable path ≠ [] →
   ∃ candidate,
     (candidate = path ∨
      Qt.contains path Qt.slash = false ∧ candidate = findExecutable path) ∧
     QFileInfo_exists candidate = true ∧
     QFileInfo_isExecutable candidate = true ∧
     resolve findExecutable path = QFileInfo_absoluteFilePath candidate).
Proof.
  intros resolve. subst resolve. unfold ResolveExecutable.
  split; [done|]. split.
  - intros Hslash other. by rewrite Hslash.
  - destruct (bool_decide (path = [])); [done|].
    destruct (Qt.contains path Qt.slash) eqn:Hslash; cbn [negb];
      (destruct (QFileInfo_exists _) eqn:Hex; cbn [negb orb]; [|done]);
      (destruct (QFileInfo_isExecutable _) eqn:Hx; cbn [negb]; [|done]);
      intros _.
    + exists path. repeat split; try done. by left.
    + exists (findExecutable path). repeat split; try done. by right.
Qed.

Lemma ResolveExecutable_cases_witness :
  ResolveExecutable (λ _, QStr "/usr/bin/java") (λ _, true) (λ _, true)
    (λ p, p) (QStr "./java") =
  ResolveExecutable (λ _, []) (λ _, true) (λ _, true) (λ p, p)
    (QStr "./java").
Proof.
  apply (proj1 (proj2 (ResolveExecutable_cases (λ _, []) (λ _, true)
           (λ _, true) (λ p, p) (QStr "./java")))).
  reflexivity.
Defined.

Section CharacterFacts.

Variable x : QChar.

Lemma contains_false (s : QString) : Qt.contains s x = false ↔ x ∉ s.
Proof.
  unfold Qt.contains. induction s as [|c s IH]; cbn [existsb].
  - split; [by intros _ ?%elem_of_nil|done].
  - rewrite orb_false_iff, IH, elem_of_cons, N.eqb_neq. tauto.
Qed.

Lemma split_keeps_out sep (s : QString) :
  x ∉ s → Forall (λ seg, x ∉ seg) (Qt.split sep s).
Proof.
  induction s as [|c s IH]; cbn [Qt.split]; intros Hx.
  - by repeat constructor.
  - apply not_elem_of_cons in Hx as [Hc Hs]. specialize (IH Hs).
    destruct (c =? sep).
    + constructor; [by intros ?%elem_of_nil|done].
    + destruct (Qt.split sep s) as [|seg segs].
      { constructor; [|done]. by intros ->%list_elem_of_singleton. }
      inversion IH; subst. constructor; [|done].
      by apply not_elem_of_cons.
Qed.

Lemma join_keeps_out (sep : QString) (segs : list QString) :
  x ∉ sep → Forall (λ seg, x ∉ seg) segs → x ∉ Qt.join sep segs.
Proof.
  intros Hsep. induction 1 as [|seg segs Hseg Hsegs IH];
    [by intros ?%elem_of_nil|].
  destruct segs as [|seg' segs]; [done|].
  change (Qt.join sep (seg :: seg' :: segs))
    with (seg ++ sep ++ Qt.join sep (seg' :: segs)).
  rewrite !elem_of_app. tauto.
Qed.

Lemma fromNativeSeparators_keeps_out os (s : QString) :
  x ≠ Qt.slash → x ∉ s → x ∉ Qt.fromNativeSeparators os s.
Proof.
  intros Hslash Hs. destruct os; try done. cbn.
  intros (c & Hc & Hin)%list_elem_of_fmap.
  destruct (c =? Qt.backslash); congruence.
Qed.

(** Cleaning a path brings in no character but the slash and the dot. *)
Lemma cleanPath_keeps_out os (s : QString) :
  x ≠ Qt.slash → x ≠ 46 → x ∉ s → x ∉ Qt.cleanPath os s.
Proof.
  intros Hslash Hdot Hs. unfold Qt.cleanPath. destruct s as [|c s]; [done|].
  assert (x ∉ Qt.join [Qt.slash]
            (Qt.normalize_segments
               (Qt.split Qt.slash (Qt.fromNativeSeparators os (c :: s)))))
    as Hjoin.
  { apply join_keeps_out; [by intros ?%list_elem_of_singleton|].
    apply normalize_segments_sub, split_keeps_out.
    by apply fromNativeSeparators_keeps_out. }
  destruct (Qt.isAbsolutePath _); [by apply not_elem_of_cons|].
  destruct (Qt.normalize_segments _); [|done].
  by intros ?%list_elem_of_singleton.
Qed.

Lemma absolutePath_keeps_out os (cwd dir : QString) :
  x ≠ Qt.slash → x ≠ 46 → x ∉ cwd → x ∉ dir →
  x ∉ Qt.absolutePath os cwd dir.
Proof.
  intros Hslash Hdot Hcwd Hdir. unfold Qt.absolutePath.
  assert (x ∉ Qt.fromNativeSeparators os (Qt.QDir_path dir)) as Hp.
  { apply fromNativeSeparators_keeps_out; [done|].
    destruct dir; [|done]. by intros ?%list_elem_of_singleton. }
  destruct (Qt.isAbsolutePath _); apply cleanPath_keeps_out; try done.
  rewrite !elem_of_app, list_elem_of_singleton. tauto.
Qed.

End CharacterFacts.

(** X17. [checkProblemticPathJava] reports a problem only when an
    exclamation mark is written in the folder's path or in the working
    directory it is resolved against: making the path absolute never
    brings one in. *)
Theorem checkProblemticPathJava_sound (os : Platform)
    (currentPath folder : QString) :
  Qt.contains currentPath 33 = false →
  Qt.contains folder 33 = false →
  checkProblemticPathJava os currentPath folder = false.
Proof.
  rewrite !contains_false. intros Hcwd Hfolder.
  unfold checkProblemticPathJava. rewrite contains_false.
  by apply absolutePath_keeps_out.
Qed.

Lemma checkProblemticPathJava_sound_witness :
  checkProblemticPathJava Linux (QStr "/home/user")
    (QStr "instances/../My Pack") = false.
Proof.
  apply (checkProblemticPathJava_sound Linux (QStr "/home/user")
           (QStr "instances/../My Pack")); reflexivity.
Defined.

(** X18. A folder named by [DirNameFromString] is no problem for Java:
    whatever name was asked for, the returned name resolved in a working
    directory without exclamation mark passes
    [checkProblemticPathJava]. *)
Theorem DirNameFromString_no_java_problem (os : Platform)
    (QFileInfo_exists : QString → bool)
    (string inDir currentPath r : QString) :
  DirNameFromString os QFileInfo_exists string inDir = Some r →
  Qt.contains currentPath 33 = false →
  checkProblemticPathJava os currentPath r = false.
Proof.
  unfold DirNameFromString. intros Hr Hcwd.
  destruct (DirNameFromString_loop_ends os QFileInfo_exists
              (RemoveInvalidFilenameChars string 45) inDir
              (Z.to_nat 9001) 0%Z (Z.to_nat 9002))
    as (r' & Hr' & Hcase); try lia.
  rewrite Hr in Hr'. injection Hr' as <-.
  assert (Forall (λ ch, Qt.contains badFilenameChars ch = false) r) as Hclean.
  { destruct Hcase as [->|(k & _ & -> & _)]; [done|].
    unfold dirName_at. destruct (k =? 0)%Z.
    - by apply sanitized_allowed.
    - apply Forall_app. split; [by apply sanitized_allowed|].
      apply number_allowed. }
  unfold checkProblemticPathJava. rewrite contains_false in Hcwd |- *.
  apply absolutePath_keeps_out; try done.
  intros Hin. rewrite Forall_forall in Hclean. by specialize (Hclean _ Hin).
Qed.

Lemma DirNameFromString_no_java_problem_witness :
  checkProblemticPathJava Linux (QStr "/home/user") (QStr "Wow-- pack1")
    = false.
Proof.
  apply (DirNameFromString_no_java_problem Linux
           (λ p, bool_decide (p = QStr "instances/Wow-- pack"))
           (QStr "Wow!! pack") (QStr "instances") (QStr "/home/user"));
    by vm_compute.
Defined.

(** ** Ensuring paths *)

Lemma path_before_last_slash_none (f : QString) :
  Qt.slash ∉ f → Qt.path_before_last_slash f = None.
Proof.
  induction f as [|c f IH]; intros Hf; cbn [Qt.path_before_last_slash];
    [done|].
  apply not_elem_of_cons in Hf as [Hc Hf]. rewrite IH by done.
  by replace (c =? Qt.slash) with false by (symmetry; by apply N.eqb_neq).
Qed.

Lemma path_before_last_slash_app (d f : QString) :
  Qt.slash ∉ f → Qt.path_before_last_slash (d ++ Qt.slash :: f) = Some d.
Proof.
  intros Hf. induction d as [|c d IH]; cbn [app Qt.path_before_last_slash].
  - by rewrite path_before_last_slash_none.
  - by rewrite IH.
Qed.

(** X19. Off Windows, for a file directly inside a directory,
    [ensureFilePathExists] asks for exactly what [ensureFolderPathExists]
    asks for the directory: with [dir] not empty and no slash in [file],
    [ensureFilePathExists(dir/file)] is [ensureFolderPathExists(dir)]. *)
Theorem ensureFilePathExists_parent (os : Platform)
    (answer : Walk.History → Walk.Call → bool) (dir file : QString)
    (h : Walk.History) :
  os ≠ Windows →
  dir ≠ [] →
  Qt.contains file Qt.slash = false →
  ensureFilePathExists os answer (dir ++ [Qt.slash] ++ file) h =
  Walk.ensureFolderPathExists answer dir h.
Proof.
  rewrite !contains_false. intros Hos Hdir Hfile.
  unfold ensureFilePathExists, Walk.ensureFolderPathExists, Qt.path.
  assert (Qt.fromNativeSeparators os (dir ++ [Qt.slash] ++ file)
          = dir ++ [Qt.slash] ++ file) as -> by (by destruct os).
  cbn [app]. rewrite path_before_last_slash_app by done.
  by destruct dir.
Qed.

Lemma ensureFilePathExists_parent_witness :
  ensureFilePathExists Linux Walk.no_copies (QStr "instances/pack/cfg.json")
    [] =
  Walk.ensureFolderPathExists Walk.no_copies (QStr "instances/pack") [].
Proof.
  apply (ensureFilePathExists_parent Linux Walk.no_copies
           (QStr "instances/pack") (QStr "cfg.json") []);
    [discriminate|discriminate|reflexivity].
Defined.

(** ** Desktop shortcuts, continued *)



(** ** Where copy and delete reach *)


Section CopyReach.

Import Walk.

Variable os : Platform.
Variable answer : History → Call → bool.

Ltac run_io :=
  unfold mbind, IO_bind, mret, IO_ret, call, qCritical; cbn [fst snd].



End CopyReach.





Section DeleteReach.

Import Sweep.

Variable os : Platform.
Variable answer : History → Call → bool.

Ltac run_io :=
  unfold mbind, IO_bind, mret, IO_ret, call, qCritical; cbn [fst snd].





End DeleteReach.

